(** * A shallow embedding of the emf22 badge 3D renderer

    The repository holds two revisions of the same MicroPython application:

    - [src/app/__init__.py], the current renderer (five render modes, depth
      sort, lighting), embedded in [Module App];
    - [src/__init__.py], the earlier renderer (four render modes, no depth
      sort, its own [ndc_to_screen]), embedded in [Module Root].

    Numbers.  Python integers are [Z].  A Python float is the rational
    number [Q] it stands for; comparisons of floats are exact.  Where a
    float is turned into an integer, in [ndc_to_screen], a rounding error
    can move the result by a pixel, and there every floating-point
    operation is the rounding [fl] of its exact result, [fl] being the
    float format of the platform.  Elsewhere arithmetic is the exact one.
    Functions that have no rational semantics ([tan], [radians], vector
    normalisation, rotation matrices) are never given a definition here;
    they are fields of the interfaces of the libraries they come from, so
    that what is proved holds for any implementation of them.

    Errors.  A Python exception ([IndexError] on a list index out of range,
    [ZeroDivisionError], [TypeError] on subscripting [None]) is the result
    [None] of the option monad. *)

From Stdlib Require Import ZArith QArith Qround Qabs Qpower Lia Lqa.
From stdpp Require Import base option list sorting strings gmap.

Set Default Proof Using "Type".

(** ** Python numbers *)

(** [a < b] on floats. *)
Definition Qltb (a b : Q) : bool :=
  match (a ?= b)%Q with Lt => true | _ => false end.

(** [int(x)] of a float: truncation towards zero. *)
Definition py_int (x : Q) : Z := Z.quot (Qnum x) (Zpos (Qden x)).

(** [a / b]: true division, raising [ZeroDivisionError] when [b] is zero. *)
Definition py_div (a b : Q) : option Q :=
  if Qeq_bool b 0 then None else Some (a / b)%Q.

(** [l[i] = x] on a list: [IndexError] when [i] is out of range. *)
Definition py_setitem {A} (l : list A) (i : nat) (x : A) : option (list A) :=
  if decide (i < length l) then Some (<[i:=x]> l) else None.

(** A [for] loop whose body may raise, threading the loop state. *)
Fixpoint foldlM {A S} (body : S → A → option S) (l : list A) (s : S) : option S :=
  match l with
  | [] => Some s
  | x :: l' => s' ← body s x; foldlM body l' s'
  end.

(** ** Vectors and matrices *)

(** A 3-component vector; [v[0]], [v[1]], [v[2]] are [vx], [vy], [vz]. *)
Record Vec3 := mkVec3 { vx : Q; vy : Q; vz : Q }.

(** A 4x4 matrix stored as a flat list of 16 numbers. *)
Definition Mat := list Q.

(** Position of the coefficient that feeds input component [c] into output
    component [r] of a matrix-vector product.  The layout is fixed by
    [perspective_matrix]: slot 11 carries the [-1] that, in the words of the
    source, causes w (output 3) to be set to -z (input 2), and slot 14
    carries the z offset (output 2, constant input 3). *)
Definition mat_slot (r c : nat) : nat := 4 * c + r.

(** ** The viewport visibility test

    Both revisions run the same loop over the projected vertices of a face:
    [visible] becomes [True] at the first vertex with
    [v[0] > -1 and v[0] < 1 and v[1] > -1 and v[1] < 1]. *)
Definition vert_in_view (v : Vec3) : bool :=
  Qltb (-1) (vx v) && Qltb (vx v) 1 && Qltb (-1) (vy v) && Qltb (vy v) 1.

Definition face_visible (face_verts : list Vec3) : bool :=
  existsb vert_in_view face_verts.

(** ** Sort by key

    [list.sort(key=...)] compares keys with [<] only and leaves the list in
    ascending order of key.  The order in which it leaves elements of equal
    key is a matter of the Python implementation (the sort of CPython is
    stable, that of MicroPython is not).  The model sorts by insertion from
    the right, which is one of the orders a sort may produce; nothing that
    is proved below about the renderer depends on how ties come out. *)
Section Sort.
Context {A : Type} (key : A → Q).

Fixpoint sort_insert (x : A) (l : list A) : list A :=
  match l with
  | [] => [x]
  | y :: l' =>
      if Qltb (key y) (key x) then y :: sort_insert x l' else x :: y :: l'
  end.

Definition py_sort (l : list A) : list A := foldr sort_insert [] l.
End Sort.

(** ** Draw calls received by the framebuffer *)

Inductive DrawCall :=
  | DrawPoints (coords : list Z) (colour : Z)
  | DrawPolygon (coords : list Z) (colour : Z) (fill : bool).

(** The directional controls queried by [_get_button_state]. *)
Inductive Pin := JOY_UP | JOY_DOWN | JOY_LEFT | JOY_RIGHT.

(** ** The native vector library [tidal3d] and the display constants of
    [tidal]

    Neither belongs to the repository: they are firmware modules.  Their
    functions are taken as they are called, with no assumption on what they
    compute. *)
Class Tidal3D := {
  v_average : list Vec3 → Vec3;
  v_subtract : Vec3 → Vec3 → Vec3;
  v_normalise : Vec3 → Vec3;
  v_dot : Vec3 → Vec3 → Q;
  v_scale : Vec3 → Q → Vec3;
  v_multiply : Vec3 → Mat → Vec3;
  v_multiply_batch : list Vec3 → Mat → list Vec3;
  (** [v_ndc_to_screen(verts, coords, width, height)] fills the array
      [coords]; its new content is the result. *)
  v_ndc_to_screen : list Vec3 → Z → Z → list Z;
  m_rotate : Mat → list Q → Mat;
  m_translate : Mat → list Q → Mat;
  color565 : Q → Q → Q → Z;
  WHITE : Z;
}.

(** [math.tan] and [math.radians]. *)
Class PyMath := {
  tan : Q → Q;
  radians : Q → Q;
}.

(** The float format of the platform.  [fl x] is the float that the real
    number [x] rounds to; an addition, subtraction or multiplication of
    floats returns the rounding of its exact result, and so does the
    conversion of an integer to a float. *)
Class PyFloat := {
  fl : Q → Q;
}.

(** The binary formats: rounding to the nearest float with a significand
    of [p] bits, ties to even.  The exponent is not bounded, so there is
    neither overflow nor underflow.  [binade a] is the exponent of a
    positive [a], the [e] with [2^e <= a < 2^(e+1)]. *)
Definition round_half_even (x : Q) : Z :=
  let f := Qfloor x in
  match (x - inject_Z f ?= 1 # 2)%Q with
  | Lt => f
  | Gt => (f + 1)%Z
  | Eq => if Z.even f then f else (f + 1)%Z
  end.

Definition binade (a : Q) : Z :=
  let e0 := (Z.log2 (Qnum a) - Z.log2 (Zpos (Qden a)))%Z in
  if Qle_bool (Qpower 2 e0) a then e0 else (e0 - 1)%Z.

Definition round_pos (p : Z) (a : Q) : Q :=
  let e := binade a in
  Qred (inject_Z (round_half_even (a * Qpower 2 (p - 1 - e)))
        * Qpower 2 (e - p + 1)).

Definition binary_round (p : Z) (x : Q) : Q :=
  match (x ?= 0)%Q with
  | Eq => 0%Q
  | Gt => round_pos p x
  | Lt => (- round_pos p (- x))%Q
  end.

(** Double precision, the float of CPython; single precision, the float
    of the MicroPython builds for microcontrollers; and arithmetic without
    rounding. *)
Definition binary64 : PyFloat := {| fl := binary_round 53 |}.
Definition binary32 : PyFloat := {| fl := binary_round 24 |}.
Definition exact_arithmetic : PyFloat := {| fl := λ x, x |}.

(** * [src/app/__init__.py] *)
Module App.

Definition MODE_POINT_CLOUD : Z := 0.
Definition MODE_WIREFRAME_FULL : Z := 1.
Definition MODE_WIREFRAME_BACK_FACE_CULLING : Z := 2.
Definition MODE_SOLID : Z := 3.
Definition MODE_SOLID_SHADED : Z := 4.

(** An entry of [mesh.faces]: [(indices, norm_index, col_index)]. *)
Record Face := mkFace {
  indices : nat * nat * nat;
  norm_index : nat;
  col_index : nat;
}.

(** The fields of [Mesh] (module [.object]) that the renderer reads and
    writes. *)
Record Mesh := mkMesh {
  vertices : list Vec3;
  normals : list Vec3;
  faces : list Face;
  colours : list Vec3;
  position : list Q;
  orientation : list Q;
  angular : list Q;
}.

Record Renderer := mkRenderer {
  fb_width : Z;
  fb_height : Z;
  render_mode : Z;
  render_object : string;
  m_proj : Mat;
  m_view : Mat;
  v_campos : Vec3;
  v_light : Vec3;
  mesh : Mesh;
}.

Definition set_render_mode (r : Renderer) (m : Z) : Renderer :=
  mkRenderer (fb_width r) (fb_height r) m (render_object r) (m_proj r)
    (m_view r) (v_campos r) (v_light r) (mesh r).

Definition set_mesh (r : Renderer) (o : string) (m : Mesh) : Renderer :=
  mkRenderer (fb_width r) (fb_height r) (render_mode r) o (m_proj r)
    (m_view r) (v_campos r) (v_light r) m.

Definition set_angular (m : Mesh) (a : list Q) : Mesh :=
  mkMesh (vertices m) (normals m) (faces m) (colours m) (position m)
    (orientation m) a.

Definition set_orientation (m : Mesh) (o : list Q) : Mesh :=
  mkMesh (vertices m) (normals m) (faces m) (colours m) (position m)
    o (angular m).

Definition identity_matrix : Mat :=
  [1; 0; 0; 0; 0; 1; 0; 0; 0; 0; 1; 0; 0; 0; 0; 1]%Q.

(** [perspective_matrix(fov, aspect, near, far)].  The three divisions
    are evaluated in the order of the assignments. *)
Definition perspective_matrix `{PyMath} (fov aspect near far : Q)
    : option Mat :=
  let proj_mat := replicate 16 0%Q in
  let scale := tan (radians (fov * (1 # 2))) in
  x ← py_div 1 (scale * aspect);
  let proj_mat := <[0%nat := x]> proj_mat in
  y ← py_div 1 scale;
  let proj_mat := <[5%nat := y]> proj_mat in
  zs ← py_div (- far) (far - near);
  let proj_mat := <[10%nat := zs]> proj_mat in
  zo ← py_div (- far * near) (far - near);
  let proj_mat := <[14%nat := zo]> proj_mat in
  let proj_mat := <[11%nat := (-1)%Q]> proj_mat in
  let proj_mat := <[15%nat := 0%Q]> proj_mat in
  Some proj_mat.

(** [select_mode]: cycle through the render modes. *)
Definition select_mode (r : Renderer) : Renderer :=
  let r := set_render_mode r (render_mode r + 1) in
  if (MODE_SOLID_SHADED <? render_mode r)%Z then set_render_mode r 0 else r.

Definition button_left (r : Renderer) : option Renderer :=
  a ← py_setitem (angular (mesh r)) 1 45%Q;
  Some (set_mesh r (render_object r) (set_angular (mesh r) a)).

Definition button_right (r : Renderer) : option Renderer :=
  a ← py_setitem (angular (mesh r)) 1 (-45)%Q;
  Some (set_mesh r (render_object r) (set_angular (mesh r) a)).

Definition button_up (r : Renderer) : option Renderer :=
  a ← py_setitem (angular (mesh r)) 0 45%Q;
  Some (set_mesh r (render_object r) (set_angular (mesh r) a)).

Definition button_down (r : Renderer) : option Renderer :=
  a ← py_setitem (angular (mesh r)) 0 (-45)%Q;
  Some (set_mesh r (render_object r) (set_angular (mesh r) a)).

(** Modelled from the spec: [Mesh.update(delta_t)] lives in the module
    [.object], which is not among the sources.  The spec gives it as
    [orientation[i] += angular[i] * delta_t] for each of the three axes,
    unconditionally. *)
Definition mesh_update_axis (ang : list Q) (delta_t : Q)
    (o : list Q) (i : nat) : option (list Q) :=
  oi ← o !! i;
  ai ← ang !! i;
  py_setitem o i (oi + ai * delta_t)%Q.

Definition mesh_update (m : Mesh) (delta_t : Q) : option Mesh :=
  o ← foldlM (mesh_update_axis (angular m) delta_t) [0; 1; 2]%nat
        (orientation m);
  Some (set_orientation m o).

(** [update(delta_t)].  [held pin] is [_get_button_state(pin)]: whether
    the control is pressed at the time of the call. *)
Definition update (held : Pin → bool) (delta_t : Q) (r : Renderer)
    : option Renderer :=
  let m := mesh r in
  m ← (if negb (held JOY_LEFT) && negb (held JOY_RIGHT)
       then set_angular m <$> py_setitem (angular m) 1 0%Q
       else Some m);
  m ← (if negb (held JOY_UP) && negb (held JOY_DOWN)
       then set_angular m <$> py_setitem (angular m) 0 0%Q
       else Some m);
  m ← mesh_update m delta_t;
  Some (set_mesh r (render_object r) m).

(** *** [render_scene] *)
Section Render.
Context `{Tidal3D}.

(** An entry of the local list [faces]:
    [(indices, norm_index, col_index, depth)]. *)
Definition FaceRec : Type := Face * Q.
Definition depth (fr : FaceRec) : Q := fr.2.

(** World-space normals and vertices: the first four statements. *)
Definition world_norms (m : Mesh) : list Vec3 :=
  let m_model := m_rotate identity_matrix (orientation m) in
  v_multiply_batch (normals m) m_model.

Definition world_verts (m : Mesh) : list Vec3 :=
  let m_model := m_rotate identity_matrix (orientation m) in
  let m_model := m_translate m_model (position m) in
  v_multiply_batch (vertices m) m_model.

(** [v_multiply(v_multiply(v, m_view), m_proj)]: camera coordinates,
    then normalised device coordinates. *)
Definition project (r : Renderer) (v : Vec3) : Vec3 :=
  let vert_cam := v_multiply v (m_view r) in
  v_multiply vert_cam (m_proj r).

(** One iteration of [for index in indices].  [projected_verts[index]]
    is tested for truth: [None] is false, a vector is true. *)
Definition project_index (r : Renderer) (verts : list Vec3)
    (projected_verts : list (option Vec3)) (index : nat)
    : option (list (option Vec3)) :=
  cached ← projected_verts !! index;
  match cached with
  | Some _ => Some projected_verts
  | None =>
      v ← verts !! index;
      py_setitem projected_verts index (Some (project r v))
  end.

(** The centre of a face and the dot product that decides culling. *)
Definition face_centre (verts : list Vec3) (f : Face) : option Vec3 :=
  let '(i0, i1, i2) := indices f in
  a ← verts !! i0;
  b ← verts !! i1;
  c ← verts !! i2;
  Some (v_average [a; b; c]).

Definition face_dot (r : Renderer) (norms : list Vec3) (centre : Vec3)
    (f : Face) : option Q :=
  let camera := v_normalise (v_subtract (v_campos r) centre) in
  n ← norms !! norm_index f;
  Some (v_dot n camera).

(** [dot < 0 and self.render_mode >= MODE_WIREFRAME_BACK_FACE_CULLING] *)
Definition cull_test (r : Renderer) (dot : Q) : bool :=
  Qltb dot 0 && (MODE_WIREFRAME_BACK_FACE_CULLING <=? render_mode r)%Z.

(** One iteration of [for indices, norm_index, col_index in mesh.faces]
    on the loop state [(projected_verts, faces)]. *)
Definition visit_face (r : Renderer) (norms verts : list Vec3)
    (st : list (option Vec3) * list FaceRec) (f : Face)
    : option (list (option Vec3) * list FaceRec) :=
  centre ← face_centre verts f;
  dot ← face_dot r norms centre f;
  if cull_test r dot then Some st
  else
    let '(i0, i1, i2) := indices f in
    pv ← foldlM (project_index r verts) [i0; i1; i2] st.1;
    let depth := vz (v_multiply centre (m_view r)) in
    Some (pv, st.2 ++ [(f, depth)]).

Definition collect_faces (r : Renderer) (norms verts : list Vec3)
    (fs : list Face) : option (list (option Vec3) * list FaceRec) :=
  foldlM (visit_face r norms verts) fs
    (replicate (length verts) None, []).

(** [faces.sort(key=lambda face : face[3])] *)
Definition sort_faces (fs : list FaceRec) : list FaceRec :=
  py_sort depth fs.

(** [face_verts = [projected_verts[i] for i in indices]].  An entry that
    is still [None] is a [TypeError] as soon as it is subscripted. *)
Definition cached_vert (projected_verts : list (option Vec3)) (i : nat)
    : option Vec3 :=
  mjoin (projected_verts !! i).

Definition face_verts (projected_verts : list (option Vec3)) (f : Face)
    : option (list Vec3) :=
  let '(i0, i1, i2) := indices f in
  mapM (cached_vert projected_verts) [i0; i1; i2].

(** The colour of a face in the current render mode. *)
Definition flat_colour (r : Renderer) (f : Face) : option Z :=
  rgb ← colours (mesh r) !! col_index f;
  Some (color565 (vx rgb) (vy rgb) (vz rgb)).

Definition shaded_colour (r : Renderer) (norms : list Vec3) (f : Face)
    : option Z :=
  n ← norms !! norm_index f;
  let dot := v_dot n (v_light r) in
  c ← colours (mesh r) !! col_index f;
  let rgb := v_scale c (- dot) in
  Some (color565 (inject_Z (Z.max (py_int (vx rgb)) 8))
                 (inject_Z (Z.max (py_int (vy rgb)) 8))
                 (inject_Z (Z.max (py_int (vz rgb)) 8))).

Definition face_colour (r : Renderer) (norms : list Vec3) (f : Face)
    : option Z :=
  if (MODE_POINT_CLOUD <? render_mode r)%Z
     && (render_mode r <? MODE_SOLID_SHADED)%Z
  then flat_colour r f
  else if (MODE_SOLID_SHADED <=? render_mode r)%Z
  then shaded_colour r norms f
  else Some WHITE.

(** The final [if]/[elif] chain: which primitive is drawn. *)
Definition dispatch (r : Renderer) (coords : list Z) (colour : Z)
    : list DrawCall :=
  if (render_mode r =? MODE_POINT_CLOUD)%Z
  then [DrawPoints coords colour]
  else if (render_mode r =? MODE_WIREFRAME_FULL)%Z
          || (render_mode r =? MODE_WIREFRAME_BACK_FACE_CULLING)%Z
  then [DrawPolygon coords colour false]
  else if (MODE_SOLID <=? render_mode r)%Z
  then [DrawPolygon coords colour true]
  else [].

(** One iteration of the rendering loop: the draw calls it issues. *)
Definition draw_with (r : Renderer) (norms : list Vec3) (f : Face)
    (fv : list Vec3) : option (list DrawCall) :=
  if negb (face_visible fv) then Some []
  else
    let coords := v_ndc_to_screen fv (fb_width r) (fb_height r) in
    colour ← face_colour r norms f;
    Some (dispatch r coords colour).

Definition draw_face (r : Renderer) (norms : list Vec3)
    (projected_verts : list (option Vec3)) (fr : FaceRec)
    : option (list DrawCall) :=
  fv ← face_verts projected_verts fr.1;
  draw_with r norms fr.1 fv.

Definition draw_faces (r : Renderer) (norms : list Vec3)
    (projected_verts : list (option Vec3)) (fs : list FaceRec)
    : option (list DrawCall) :=
  @concat DrawCall <$> mapM (draw_face r norms projected_verts) fs.

Definition render_scene (r : Renderer) : option (list DrawCall) :=
  let norms := world_norms (mesh r) in
  let verts := world_verts (mesh r) in
  st ← collect_faces r norms verts (faces (mesh r));
  draw_faces r norms st.1 (sort_faces st.2).

(** The same pipeline without the projected-vertex cache: every face
    projects its own three vertices again. *)
Definition face_verts_direct (r : Renderer) (verts : list Vec3)
    (f : Face) : option (list Vec3) :=
  let '(i0, i1, i2) := indices f in
  mapM (λ i, project r <$> verts !! i) [i0; i1; i2].

Definition draw_face_direct (r : Renderer) (norms verts : list Vec3)
    (fr : FaceRec) : option (list DrawCall) :=
  fv ← face_verts_direct r verts fr.1;
  draw_with r norms fr.1 fv.

Definition visit_face_direct (r : Renderer) (norms verts : list Vec3)
    (fs : list FaceRec) (f : Face) : option (list FaceRec) :=
  centre ← face_centre verts f;
  dot ← face_dot r norms centre f;
  if cull_test r dot then Some fs
  else Some (fs ++ [(f, vz (v_multiply centre (m_view r)))]).

Definition render_scene_direct (r : Renderer)
    : option (list DrawCall) :=
  let norms := world_norms (mesh r) in
  let verts := world_verts (mesh r) in
  fs ← foldlM (visit_face_direct r norms verts) (faces (mesh r)) [];
  @concat DrawCall <$>
    mapM (draw_face_direct r norms verts) (sort_faces fs).
End Render.

(** *** The application as a state machine

    [__init__] builds the first state; [on_activate] binds the two action
    buttons and the four directions to their handlers; [loop] calls
    [update] once per frame.  Rendering reads the state and does not
    change it; the frame timing fields are left out of [Renderer]. *)
Section Machine.
Context `{Tidal3D} `{PyMath}.
(** [Mesh(filename)], the loader of [.object]. *)
Context (load_mesh : string → Mesh).

(** [__init__], for a display of the given size. *)
Definition init (width height : Z) : option Renderer :=
  aspect ← py_div (inject_Z width) (inject_Z height);
  proj ← perspective_matrix 90 aspect (1 # 10) 100;
  Some {|
    fb_width := width;
    fb_height := height;
    render_mode := MODE_SOLID_SHADED;
    render_object := "cube.obj";
    m_proj := proj;
    v_campos := mkVec3 0 10 35;
    m_view := m_translate identity_matrix [0; -10; -35]%Q;
    v_light := v_normalise (mkVec3 (-1) (-1) (-1));
    mesh := load_mesh "cube.obj";
  |}.

Definition select_object (r : Renderer) : Renderer :=
  let o :=
    if String.eqb (render_object r) "cube.obj" then "teapot.obj"
    else if String.eqb (render_object r) "teapot.obj" then "cube.obj"
    else render_object r in
  set_mesh r o (load_mesh o).

Inductive Event :=
  | BUTTON_A
  | BUTTON_B
  | Joy (pin : Pin)
  | Frame (held : Pin → bool) (delta_t : Q).

Definition handle (e : Event) (r : Renderer) : option Renderer :=
  match e with
  | BUTTON_A => Some (select_mode r)
  | BUTTON_B => Some (select_object r)
  | Joy JOY_UP => button_up r
  | Joy JOY_DOWN => button_down r
  | Joy JOY_LEFT => button_left r
  | Joy JOY_RIGHT => button_right r
  | Frame held delta_t => update held delta_t r
  end.

Inductive reachable (width height : Z) : Renderer → Prop :=
  | reach_init r : init width height = Some r → reachable width height r
  | reach_step r e r' :
      reachable width height r → handle e r = Some r' →
      reachable width height r'.
End Machine.

(** *** [loop]: one frame

    The frame timing fields of the renderer, kept beside [Renderer]. *)
Record Clock := mkClock {
  start_t : Z;
  accum_t : Z;
  frame_counter : Z;
  fps : Z;
}.

(** What the buffered display receives during a frame: [rect], [text],
    the primitives of [render_scene], and [blit]. *)
Inductive FbCall :=
  | FbRect (x y w h : Z) (colour : Z) (fill : bool)
  | FbText (s : string) (x y : Z) (colour : Z)
  | FbScene (call : DrawCall)
  | FbBlit.

Section Loop.
Context `{Tidal3D}.
(** [BLACK] of [tidal], [time.ticks_diff], and the formatting of the frame
    rate by ["{0:2d} fps".format]. *)
Context (BLACK : Z) (ticks_diff : Z → Z → Z) (format_fps : Z → string).

Definition render_background (r : Renderer) : list FbCall :=
  [FbRect 0 0 (fb_width r) (fb_height r) BLACK true;
   FbText "A = RENDER MODE" 0 0 WHITE;
   FbText "B = NEXT OBJECT" 0 10 WHITE;
   FbText "JOY = ROTATE" 0 20 WHITE].

Definition render_foreground (r : Renderer) (c : Clock) : list FbCall :=
  [FbText (format_fps (fps c)) 0 (fb_height r - 10) WHITE].

(** The bookkeeping at the end of [loop], for a frame that started at
    [now] and took [delta_t] milliseconds. *)
Definition count_frame (now delta_t : Z) (c : Clock) : Clock :=
  let frame_counter := (frame_counter c + 1)%Z in
  let accum_t := (accum_t c + delta_t)%Z in
  if (1000 <? accum_t)%Z
  then mkClock now (accum_t - 1000) 0 frame_counter
  else mkClock now accum_t frame_counter (fps c).

(** [loop()], entered when [time.ticks_ms()] reads [now]; the final
    [print] and the scheduling of the next call are left out. *)
Definition loop (held : Pin → bool) (now : Z) (s : Renderer * Clock)
    : option (Renderer * Clock * list FbCall) :=
  let last_t := start_t s.2 in
  let delta_t := ticks_diff now last_t in
  r ← update held (inject_Z delta_t / 1000) s.1;
  scene ← render_scene r;
  let frame :=
    render_background r ++ (FbScene <$> scene)
      ++ render_foreground r s.2 ++ [FbBlit] in
  Some (r, count_frame now delta_t s.2, frame).

(** Successive frames entered at the given clock readings. *)
Definition run (held : Pin → bool) (ticks : list Z) (s : Renderer * Clock)
    : option (Renderer * Clock) :=
  foldlM (λ s now, (λ out, out.1) <$> loop held now s) ticks s.
End Loop.

End App.

(** ** The vector and matrix classes of [.math3d]

    [Vec] and [Mat] are imported by [src/__init__.py] from a module of the
    repository that is not among the sources.  Their methods are taken as
    they are called, with no assumption on what they compute. *)
Class Math3D := {
  vec_add : Vec3 → Vec3 → Vec3;
  vec_subtract : Vec3 → Vec3 → Vec3;
  vec_cross : Vec3 → Vec3 → Vec3;
  vec_scale : Vec3 → Q → Vec3;
  vec_normalise : Vec3 → Vec3;
  vec_dot : Vec3 → Vec3 → Q;
  vec_multiply : Vec3 → Mat → Vec3;
  mat_identity : Mat;
  mat_rotate : Mat → list Q → Mat;
  mat_translate : Mat → list Q → Mat;
}.

(** * [src/__init__.py] *)
Module Root.

Definition MODE_POINT_CLOUD : Z := 0.
Definition MODE_WIREFRAME_FULL : Z := 1.
Definition MODE_WIREFRAME_BACK_FACE_CULLING : Z := 2.
Definition MODE_SOLID : Z := 3.

(** The fields of [Mesh] that this revision reads and writes;
    [colours] already holds display colours. *)
Record Mesh := mkMesh {
  vertices : list Vec3;
  indices : list (nat * nat * nat);
  colour_indices : list nat;
  colours : list Z;
  position : list Q;
  orientation : list Q;
  angular : list Q;
}.

Record Renderer := mkRenderer {
  fb_width : Z;
  fb_height : Z;
  render_mode : Z;
  m_proj : Mat;
  m_view : Mat;
  mesh : Mesh;
}.

Definition set_render_mode (r : Renderer) (m : Z) : Renderer :=
  mkRenderer (fb_width r) (fb_height r) m (m_proj r) (m_view r) (mesh r).

Definition set_mesh (r : Renderer) (m : Mesh) : Renderer :=
  mkRenderer (fb_width r) (fb_height r) (render_mode r) (m_proj r)
    (m_view r) m.

Definition set_angular (m : Mesh) (a : list Q) : Mesh :=
  mkMesh (vertices m) (indices m) (colour_indices m) (colours m)
    (position m) (orientation m) a.

(** [select_mode]: an [if]/[elif] chain with no final [else]. *)
Definition select_mode (r : Renderer) : Renderer :=
  if (render_mode r =? MODE_POINT_CLOUD)%Z
  then set_render_mode r MODE_WIREFRAME_FULL
  else if (render_mode r =? MODE_WIREFRAME_FULL)%Z
  then set_render_mode r MODE_WIREFRAME_BACK_FACE_CULLING
  else if (render_mode r =? MODE_WIREFRAME_BACK_FACE_CULLING)%Z
  then set_render_mode r MODE_SOLID
  else if (render_mode r =? MODE_SOLID)%Z
  then set_render_mode r MODE_POINT_CLOUD
  else r.

Definition button_left (r : Renderer) : option Renderer :=
  a ← py_setitem (angular (mesh r)) 1 3%Q;
  Some (set_mesh r (set_angular (mesh r) a)).

Definition button_right (r : Renderer) : option Renderer :=
  a ← py_setitem (angular (mesh r)) 1 (-3)%Q;
  Some (set_mesh r (set_angular (mesh r) a)).

Definition button_up (r : Renderer) : option Renderer :=
  a ← py_setitem (angular (mesh r)) 0 3%Q;
  Some (set_mesh r (set_angular (mesh r) a)).

Definition button_down (r : Renderer) : option Renderer :=
  a ← py_setitem (angular (mesh r)) 0 (-3)%Q;
  Some (set_mesh r (set_angular (mesh r) a)).

(** The two [if] statements of [update()], up to the call of
    [self.mesh.update()]. *)
Definition kill_velocity (held : Pin → bool) (r : Renderer)
    : option Renderer :=
  let m := mesh r in
  m ← (if negb (held JOY_LEFT) && negb (held JOY_RIGHT)
       then set_angular m <$> py_setitem (angular m) 1 0%Q
       else Some m);
  m ← (if negb (held JOY_UP) && negb (held JOY_DOWN)
       then set_angular m <$> py_setitem (angular m) 0 0%Q
       else Some m);
  Some (set_mesh r m).

(** [update()].  [mesh_update] is [Mesh.update()], of the module
    [.object], which is not among the sources. *)
Definition update (mesh_update : Mesh → option Mesh) (held : Pin → bool)
    (r : Renderer) : option Renderer :=
  r ← kill_velocity held r;
  m ← mesh_update (mesh r);
  Some (set_mesh r m).

(** [ndc_to_screen(ndc)].  Each operation rounds: the sum, the product
    with 0.5, the difference from 1, the conversion of the integer width or
    height, and the product with it; [int] then truncates. *)
Definition ndc_to_screen `{PyFloat} (r : Renderer) (ndc : Vec3) : Z * Z :=
  let width := fl (inject_Z (fb_width r)) in
  let height := fl (inject_Z (fb_height r)) in
  let x := fl (fl (fl (vx ndc + 1) * (1 # 2)) * width) in
  let y := fl (fl (1 - fl (fl (vy ndc + 1) * (1 # 2))) * height) in
  (py_int x, py_int y).

Inductive DrawCall :=
  | Points (coords : list (Z * Z)) (colour : Z)
  | Polygon (coords : list (Z * Z)) (x y : Z) (colour : Z)
  | FillPolygon (coords : list (Z * Z)) (x y : Z) (colour : Z).

(** *** [render_scene] *)
Section Render.
Context `{Math3D} `{PyFloat}.
(** [WHITE], of the firmware module [tidal]. *)
Context (WHITE : Z).

Definition world_verts (m : Mesh) : list Vec3 :=
  let m_model :=
    mat_translate (mat_rotate mat_identity (orientation m))
      (position m) in
  (λ v, vec_multiply v m_model) <$> vertices m.

Definition project (r : Renderer) (v : Vec3) : Vec3 :=
  let vert_cam := vec_multiply v (m_view r) in
  vec_multiply vert_cam (m_proj r).

(** One iteration of [for index in indices], on the dictionary
    [projected_verts]. *)
Definition project_index (r : Renderer) (verts : list Vec3)
    (projected_verts : gmap nat Vec3) (index : nat)
    : option (gmap nat Vec3) :=
  match projected_verts !! index with
  | Some _ => Some projected_verts
  | None =>
      vert_world ← verts !! index;
      Some (<[index := project r vert_world]> projected_verts)
  end.

(** The dot product that decides culling, from the three world
    vertices of a face. *)
Definition face_dot (a b c : Vec3) : Q :=
  let normal :=
    vec_normalise (vec_cross (vec_subtract a b) (vec_subtract b c)) in
  let centre := vec_scale (vec_add (vec_add a b) c) (1 # 3) in
  let camera :=
    vec_normalise (vec_subtract (mkVec3 0 0 35) centre) in
  vec_dot normal camera.

Definition cull_test (r : Renderer) (dot : Q) : bool :=
  Qltb dot 0 && (MODE_WIREFRAME_BACK_FACE_CULLING <=? render_mode r)%Z.

(** The loop state: [(projected_verts, face_indices, face_colours)];
    the two lists grow together and are kept zipped. *)
Definition visit_face (r : Renderer) (verts : list Vec3)
    (st : gmap nat Vec3 * list ((nat * nat * nat) * nat))
    (f : (nat * nat * nat) * nat)
    : option (gmap nat Vec3 * list ((nat * nat * nat) * nat)) :=
  let '(i0, i1, i2) := f.1 in
  a ← verts !! i0;
  b ← verts !! i1;
  c ← verts !! i2;
  if cull_test r (face_dot a b c) then Some st
  else
    pv ← foldlM (project_index r verts) [i0; i1; i2] st.1;
    Some (pv, st.2 ++ [f]).

Definition collect_faces (r : Renderer) (verts : list Vec3)
    (fs : list ((nat * nat * nat) * nat))
    : option (gmap nat Vec3 * list ((nat * nat * nat) * nat)) :=
  foldlM (visit_face r verts) fs (∅, []).

(** [[projected_verts[i] for i in indices]]: [KeyError] on a missing
    key. *)
Definition face_verts (projected_verts : gmap nat Vec3)
    (idx : nat * nat * nat) : option (list Vec3) :=
  let '(i0, i1, i2) := idx in
  mapM (λ i, projected_verts !! i) [i0; i1; i2].

Definition dispatch (r : Renderer) (coords : list (Z * Z))
    (colour_index : nat) : option (list DrawCall) :=
  if (render_mode r =? MODE_POINT_CLOUD)%Z
  then Some [Points coords WHITE]
  else if (render_mode r =? MODE_WIREFRAME_FULL)%Z
          || (render_mode r =? MODE_WIREFRAME_BACK_FACE_CULLING)%Z
  then c ← colours (mesh r) !! colour_index;
       Some [Polygon coords 0 0 c]
  else if (MODE_SOLID <=? render_mode r)%Z
  then c ← colours (mesh r) !! colour_index;
       Some [FillPolygon coords 0 0 c]
  else Some [].

Definition draw_with (r : Renderer) (colour_index : nat)
    (fv : list Vec3) : option (list DrawCall) :=
  if negb (face_visible fv) then Some []
  else dispatch r (ndc_to_screen r <$> fv) colour_index.

Definition draw_face (r : Renderer) (projected_verts : gmap nat Vec3)
    (f : (nat * nat * nat) * nat) : option (list DrawCall) :=
  fv ← face_verts projected_verts f.1;
  draw_with r f.2 fv.

Definition render_scene (r : Renderer) : option (list DrawCall) :=
  let verts := world_verts (mesh r) in
  st ← collect_faces r verts
         (zip (indices (mesh r)) (colour_indices (mesh r)));
  @concat DrawCall <$> mapM (draw_face r st.1) st.2.

(** The same pipeline without the dictionary. *)
Definition visit_face_direct (r : Renderer) (verts : list Vec3)
    (fs : list ((nat * nat * nat) * nat)) (f : (nat * nat * nat) * nat)
    : option (list ((nat * nat * nat) * nat)) :=
  let '(i0, i1, i2) := f.1 in
  a ← verts !! i0;
  b ← verts !! i1;
  c ← verts !! i2;
  if cull_test r (face_dot a b c) then Some fs else Some (fs ++ [f]).

Definition face_verts_direct (r : Renderer) (verts : list Vec3)
    (idx : nat * nat * nat) : option (list Vec3) :=
  let '(i0, i1, i2) := idx in
  mapM (λ i, project r <$> verts !! i) [i0; i1; i2].

Definition draw_face_direct (r : Renderer) (verts : list Vec3)
    (f : (nat * nat * nat) * nat) : option (list DrawCall) :=
  fv ← face_verts_direct r verts f.1;
  draw_with r f.2 fv.

Definition render_scene_direct (r : Renderer)
    : option (list DrawCall) :=
  let verts := world_verts (mesh r) in
  fs ← foldlM (visit_face_direct r verts)
         (zip (indices (mesh r)) (colour_indices (mesh r))) [];
  @concat DrawCall <$> mapM (draw_face_direct r verts) fs.
End Render.

(** *** The application as a state machine *)
Section Machine.
Context `{Math3D}.
(** [Mat.perspective], [Mesh(filename)] and [Mesh.update()], of the
    modules [.math3d] and [.object]. *)
Context (mat_perspective : Q → Q → Q → Q → Mat).
Context (load_mesh : string → Mesh).
Context (mesh_update : Mesh → option Mesh).

Definition init (width height : Z) : option Renderer :=
  aspect ← py_div (inject_Z width) (inject_Z height);
  Some {|
    fb_width := width;
    fb_height := height;
    render_mode := MODE_POINT_CLOUD;
    m_proj := mat_perspective 90 aspect (1 # 10) 100;
    m_view := mat_translate mat_identity [0; 0; -35]%Q;
    mesh := load_mesh "cube.obj";
  |}.

Inductive Event :=
  | BUTTON_A
  | Joy (pin : Pin)
  | Frame (held : Pin → bool).

Definition handle (e : Event) (r : Renderer) : option Renderer :=
  match e with
  | BUTTON_A => Some (select_mode r)
  | Joy JOY_UP => button_up r
  | Joy JOY_DOWN => button_down r
  | Joy JOY_LEFT => button_left r
  | Joy JOY_RIGHT => button_right r
  | Frame held => update mesh_update held r
  end.

Inductive reachable (width height : Z) : Renderer → Prop :=
  | reach_init r : init width height = Some r → reachable width height r
  | reach_step r e r' :
      reachable width height r → handle e r = Some r' →
      reachable width height r'.
End Machine.

End Root.

(** * Vocabulary of the specification

    Predicates that state, in the words of the specification, what the
    pipeline is meant to do. *)

(** [x] and [y] both lie in the closed interval [-1, 1]. *)
Definition in_unit_square (v : Vec3) : Prop :=
  (-1 <= vx v)%Q ∧ (vx v <= 1)%Q ∧ (-1 <= vy v)%Q ∧ (vy v <= 1)%Q.

(** [x] and [y] both lie strictly between -1 and 1. *)
Definition in_open_square (v : Vec3) : Prop :=
  (-1 < vx v)%Q ∧ (vx v < 1)%Q ∧ (-1 < vy v)%Q ∧ (vy v < 1)%Q.

(** [z] is [x] truncated towards zero. *)
Definition truncation_of (x : Q) (z : Z) : Prop :=
  ((0 <= x)%Q → (inject_Z z <= x)%Q ∧ (x < inject_Z z + 1)%Q) ∧
  ((x <= 0)%Q → (inject_Z z - 1 < x)%Q ∧ (x <= inject_Z z)%Q).

(** Ascending order of depth. *)
Definition depth_le (a b : App.FaceRec) : Prop :=
  (App.depth a <= App.depth b)%Q.

(** The coordinates carried by a draw call. *)
Definition call_coords (c : DrawCall) : list Z :=
  match c with
  | DrawPoints coords _ => coords
  | DrawPolygon coords _ _ => coords
  end.

(** The culling decision of [visit_face] on its own: whether the face is
    dropped by back-face culling. *)
Definition app_culled `{Tidal3D} (r : App.Renderer) (norms verts : list Vec3)
    (f : App.Face) : bool :=
  match App.face_centre verts f ≫= λ centre, App.face_dot r norms centre f with
  | Some dot => App.cull_test r dot
  | None => false
  end.

Definition root_culled `{Math3D} (r : Root.Renderer) (verts : list Vec3)
    (f : (nat * nat * nat) * nat) : bool :=
  match verts !! f.1.1.1, verts !! f.1.1.2, verts !! f.1.2 with
  | Some a, Some b, Some c => Root.cull_test r (Root.face_dot a b c)
  | _, _, _ => false
  end.

(** Every filled entry of the cache is the projection of its own vertex. *)
Definition cache_sound `{Tidal3D} (r : App.Renderer) (verts : list Vec3)
    (projected_verts : list (option Vec3)) : Prop :=
  ∀ (i : nat) (p : Vec3),
    projected_verts !! i = Some (Some p) →
    ∃ v, verts !! i = Some v ∧ p = App.project r v.

(** The cache holds the projection of vertex [i]. *)
Definition vert_cached `{Tidal3D} (r : App.Renderer) (verts : list Vec3)
    (projected_verts : list (option Vec3)) (i : nat) : Prop :=
  ∃ v, verts !! i = Some v ∧
       projected_verts !! i = Some (Some (App.project r v)).

Definition face_cached `{Tidal3D} (r : App.Renderer) (verts : list Vec3)
    (projected_verts : list (option Vec3)) (f : App.Face) : Prop :=
  vert_cached r verts projected_verts (App.indices f).1.1 ∧
  vert_cached r verts projected_verts (App.indices f).1.2 ∧
  vert_cached r verts projected_verts (App.indices f).2.

(** The same, for the dictionary of [src/__init__.py]. *)
Definition dict_sound `{Math3D} (r : Root.Renderer) (verts : list Vec3)
    (projected_verts : gmap nat Vec3) : Prop :=
  ∀ (i : nat) (p : Vec3),
    projected_verts !! i = Some p →
    ∃ v, verts !! i = Some v ∧ p = Root.project r v.

Definition vert_in_dict `{Math3D} (r : Root.Renderer) (verts : list Vec3)
    (projected_verts : gmap nat Vec3) (i : nat) : Prop :=
  ∃ v, verts !! i = Some v ∧ projected_verts !! i = Some (Root.project r v).

Definition face_in_dict `{Math3D} (r : Root.Renderer) (verts : list Vec3)
    (projected_verts : gmap nat Vec3) (idx : nat * nat * nat) : Prop :=
  vert_in_dict r verts projected_verts idx.1.1 ∧
  vert_in_dict r verts projected_verts idx.1.2 ∧
  vert_in_dict r verts projected_verts idx.2.

(** The indices of a face are within the world-space arrays, and its
    colour index is within the palette whenever the mode reads colours. *)
Definition face_in_range (r : App.Renderer) (norms verts : list Vec3)
    (f : App.Face) : Prop :=
  ((App.indices f).1.1 < length verts)%nat ∧
  ((App.indices f).1.2 < length verts)%nat ∧
  ((App.indices f).2 < length verts)%nat ∧
  (App.norm_index f < length norms)%nat ∧
  ((App.MODE_POINT_CLOUD < App.render_mode r)%Z →
   (App.col_index f < length (App.colours (App.mesh r)))%nat).

(** The primitive that a render mode stands for. *)
Definition call_fits_mode `{Tidal3D} (mode : Z) (c : DrawCall) : Prop :=
  match c with
  | DrawPoints _ colour => mode = App.MODE_POINT_CLOUD ∧ colour = WHITE
  | DrawPolygon _ _ false =>
      mode = App.MODE_WIREFRAME_FULL ∨
      mode = App.MODE_WIREFRAME_BACK_FACE_CULLING
  | DrawPolygon _ _ true => (App.MODE_SOLID ≤ mode)%Z
  end.

(** Vertex [i] belongs to face [f]. *)
Definition vertex_of (f : App.Face) (i : nat) : Prop :=
  i = (App.indices f).1.1 ∨ i = (App.indices f).1.2 ∨ i = (App.indices f).2.

(** A position on the display or on its right or bottom edge, one past
    the last column or row. *)
Definition within_display (r : Root.Renderer) (p : Z * Z) : Prop :=
  (0 ≤ p.1 ≤ Root.fb_width r)%Z ∧ (0 ≤ p.2 ≤ Root.fb_height r)%Z.

(** What the float format is taken to satisfy: rounding keeps the order,
    and a number that is a float rounds to itself. *)
Definition fl_monotone `{PyFloat} : Prop :=
  ∀ a b : Q, (a <= b)%Q → (fl a <= fl b)%Q.

Definition fl_exact `{PyFloat} (x : Q) : Prop := (fl x == x)%Q.

(** The coordinates carried by a draw call of the earlier revision. *)
Definition root_call_coords (c : Root.DrawCall) : list (Z * Z) :=
  match c with
  | Root.Points cs _ | Root.Polygon cs _ _ _ | Root.FillPolygon cs _ _ _ =>
      cs
  end.

(** The time that passes over successive frames entered at the clock
    readings [ticks], the previous frame having been entered at [last]; and
    the condition that none of these frames takes longer than [limit]. *)
Fixpoint elapsed (ticks_diff : Z → Z → Z) (last : Z) (ticks : list Z) : Z :=
  match ticks with
  | [] => 0
  | now :: rest => ticks_diff now last + elapsed ticks_diff now rest
  end.

Fixpoint frames_within (ticks_diff : Z → Z → Z) (limit last : Z)
    (ticks : list Z) : Prop :=
  match ticks with
  | [] => True
  | now :: rest =>
      (0 ≤ ticks_diff now last ≤ limit)%Z ∧
      frames_within ticks_diff limit now rest
  end.

(** * Concrete inputs

    One implementation of each library interface, in exact rational
    arithmetic, on which the pipeline can be evaluated.  Nothing is proved
    about these implementations: the theorems below hold for every
    implementation, and these only serve to run them on examples. *)
Module Examples.

Definition at_ (m : Mat) (i : nat) : Q := nth i m 0%Q.

Definition q_multiply (v : Vec3) (m : Mat) : Vec3 :=
  let x := (vx v * at_ m 0 + vy v * at_ m 4 + vz v * at_ m 8 + at_ m 12)%Q in
  let y := (vx v * at_ m 1 + vy v * at_ m 5 + vz v * at_ m 9 + at_ m 13)%Q in
  let z := (vx v * at_ m 2 + vy v * at_ m 6 + vz v * at_ m 10 + at_ m 14)%Q in
  let w := (vx v * at_ m 3 + vy v * at_ m 7 + vz v * at_ m 11 + at_ m 15)%Q in
  mkVec3 (Qred (x / w)) (Qred (y / w)) (Qred (z / w)).

Definition q_sum (l : list Vec3) : Vec3 :=
  foldr (λ v s, mkVec3 (vx v + vx s) (vy v + vy s) (vz v + vz s))
    (mkVec3 0 0 0) l.

Definition q_scale (v : Vec3) (k : Q) : Vec3 :=
  mkVec3 (Qred (vx v * k)) (Qred (vy v * k)) (Qred (vz v * k)).

(** Normalisation by the 1-norm: it keeps the direction and stays
    rational. *)
Definition q_normalise (v : Vec3) : Vec3 :=
  q_scale v (/ (Qabs (vx v) + Qabs (vy v) + Qabs (vz v))).

Definition q_ndc_to_screen (vs : list Vec3) (width height : Z) : list Z :=
  vs ≫= λ v,
    [py_int ((vx v + 1) * (1 # 2) * inject_Z width);
     py_int ((1 - (vy v + 1) * (1 # 2)) * inject_Z height)].

Definition q_color565 (r g b : Q) : Z :=
  Z.lor (Z.lor (Z.shiftl (Z.land (py_int r) 248) 8)
               (Z.shiftl (Z.land (py_int g) 252) 3))
        (Z.shiftr (py_int b) 3).

Definition tidal3d : Tidal3D := {|
  v_average l := q_scale (q_sum l) (1 / inject_Z (Z.of_nat (length l)));
  v_subtract a b := mkVec3 (vx a - vx b) (vy a - vy b) (vz a - vz b);
  v_normalise := q_normalise;
  v_dot a b := Qred (vx a * vx b + vy a * vy b + vz a * vz b);
  v_scale := q_scale;
  v_multiply := q_multiply;
  v_multiply_batch l m := (λ v, q_multiply v m) <$> l;
  v_ndc_to_screen := q_ndc_to_screen;
  (* exact for the zero orientation of the meshes below *)
  m_rotate m _ := m;
  m_translate m t :=
    <[12%nat := nth 0 t 0%Q]>
      (<[13%nat := nth 1 t 0%Q]> (<[14%nat := nth 2 t 0%Q]> m));
  color565 := q_color565;
  WHITE := 65535;
|}.

(** Rational approximations of [radians] and [tan]. *)
Definition pymath : PyMath := {|
  radians d := (d * (355 # 113) / 180)%Q;
  tan x := (x + x * x * x / 3 + 2 * x * x * x * x * x / 15)%Q;
|}.

Definition math3d : Math3D := {|
  vec_add a b := mkVec3 (vx a + vx b) (vy a + vy b) (vz a + vz b);
  vec_subtract a b := mkVec3 (vx a - vx b) (vy a - vy b) (vz a - vz b);
  vec_cross a b :=
    mkVec3 (vy a * vz b - vz a * vy b) (vz a * vx b - vx a * vz b)
           (vx a * vy b - vy a * vx b);
  vec_scale := q_scale;
  vec_normalise := q_normalise;
  vec_dot a b := Qred (vx a * vx b + vy a * vy b + vz a * vz b);
  vec_multiply := q_multiply;
  mat_identity := App.identity_matrix;
  mat_rotate m _ := m;
  mat_translate m t :=
    <[12%nat := nth 0 t 0%Q]>
      (<[13%nat := nth 1 t 0%Q]> (<[14%nat := nth 2 t 0%Q]> m));
|}.

(** A triangle seen from both sides: face 0 turns its front to the
    camera, face 1 its back; they share their three vertices. *)
Definition two_sided : App.Mesh := {|
  App.vertices := [mkVec3 (-10) 0 0; mkVec3 10 0 0; mkVec3 0 20 0];
  App.normals := [mkVec3 0 0 1; mkVec3 0 0 (-1)];
  App.faces := [App.mkFace (0, 1, 2)%nat 0 0; App.mkFace (0, 2, 1)%nat 1 1];
  App.colours := [mkVec3 255 0 0; mkVec3 0 255 0];
  App.position := [0; 0; 0]%Q;
  App.orientation := [0; 0; 0]%Q;
  App.angular := [0; 0; 0]%Q;
|}.

Definition app_load (_ : string) : App.Mesh := two_sided.

(** The renderer that [__init__] builds on a 135 x 240 display. *)
Definition app0 : App.Renderer :=
  default
    (App.mkRenderer 135 240 4 "cube.obj" [] [] (mkVec3 0 0 0)
       (mkVec3 0 0 0) two_sided)
    (@App.init tidal3d pymath app_load 135 240).

Definition root_mesh : Root.Mesh := {|
  Root.vertices := [mkVec3 (-10) 0 0; mkVec3 10 0 0; mkVec3 0 20 0];
  Root.indices := [(0, 1, 2)%nat; (0, 2, 1)%nat];
  Root.colour_indices := [0; 1]%nat;
  Root.colours := [63488; 2016]%Z;
  Root.position := [0; 0; 0]%Q;
  Root.orientation := [0; 0; 0]%Q;
  Root.angular := [0; 0; 0]%Q;
|}.

Definition root_load (_ : string) : Root.Mesh := root_mesh.

Definition root_perspective (fov aspect near far : Q) : Mat :=
  default [] (@App.perspective_matrix pymath fov aspect near far).

Definition root_mesh_update (m : Root.Mesh) : option Root.Mesh := Some m.

(** A near triangle listed before a far one, both facing the camera. *)
Definition two_depths : App.Mesh := {|
  App.vertices :=
    [mkVec3 (-10) 0 0; mkVec3 10 0 0; mkVec3 0 20 0;
     mkVec3 (-10) 0 (-10); mkVec3 10 0 (-10); mkVec3 0 20 (-10)];
  App.normals := [mkVec3 0 0 1];
  App.faces := [App.mkFace (0, 1, 2)%nat 0 0; App.mkFace (3, 4, 5)%nat 0 1];
  App.colours := [mkVec3 255 0 0; mkVec3 0 255 0];
  App.position := [0; 0; 0]%Q;
  App.orientation := [0; 0; 0]%Q;
  App.angular := [0; 0; 0]%Q;
|}.

Definition app_two_depths : App.Renderer :=
  App.set_render_mode (App.set_mesh app0 "cube.obj" two_depths) 3.

Definition root0 : Root.Renderer :=
  default (Root.mkRenderer 135 240 0 [] [] root_mesh)
    (@Root.init math3d root_perspective root_load 135 240).

Definition nobody (_ : Pin) : bool := false.

(** A clock reading of the difference of two tick counts, without
    wrap-around, and a stand-in for the formatting of the frame rate. *)
Definition plain_diff (a b : Z) : Z := (a - b)%Z.
Definition no_format (_ : Z) : string := "fps".

(** The same renderers with the mesh already turning about both axes. *)
Definition app_spinning : App.Renderer :=
  App.set_mesh app0 "cube.obj" (App.set_angular two_sided [-45; 45; 0]%Q).

Definition root_spinning : Root.Renderer :=
  Root.set_mesh root0 (Root.set_angular root_mesh [3; -3; 0]%Q).

End Examples.

(** * Properties *)

(** ** Numbers *)

Lemma Qltb_lt (a b : Q) : Qltb a b = true ↔ (a < b)%Q.
Proof.
  unfold Qltb. destruct (Qcompare_spec a b) as [E|L|G].
  - split; [done|]. rewrite E. intros L. by apply Qlt_irrefl in L.
  - by split.
  - split; [done|]. intros L.
    destruct (Qlt_irrefl _ (Qlt_trans _ _ _ L G)).
Qed.

Lemma Qltb_ge (a b : Q) : Qltb a b = false ↔ (b <= a)%Q.
Proof.
  destruct (Qltb a b) eqn:E.
  - apply Qltb_lt in E. split; [done|].
    intros L. destruct (Qlt_not_le _ _ E L).
  - split; [|done]. intros _. apply Qnot_lt_le.
    intros L%Qltb_lt. congruence.
Qed.

Lemma py_int_truncates (x : Q) : truncation_of x (py_int x).
Proof.
  destruct x as [n d]. unfold truncation_of, py_int, Qle, Qlt. cbn.
  pose proof (Z.quot_rem' n (Zpos d)) as E.
  split; intros Hs.
  - assert (0 <= n)%Z as Hn by lia.
    pose proof (Z.rem_bound_pos n (Zpos d) Hn ltac:(lia)). nia.
  - assert (n <= 0)%Z as Hn by lia.
    pose proof (Z.rem_bound_pos_neg n (Zpos d) ltac:(lia) Hn). nia.
Qed.

Lemma py_setitem_Some {A} (l : list A) (i : nat) (x : A) :
  (i < length l)%nat → py_setitem l i x = Some (<[i:=x]> l).
Proof. intros Hi. unfold py_setitem. by rewrite decide_True. Qed.

Lemma py_setitem_inv {A} (l l' : list A) (i : nat) (x : A) :
  py_setitem l i x = Some l' → (i < length l)%nat ∧ l' = <[i:=x]> l.
Proof. unfold py_setitem. case_decide; naive_solver. Qed.

(** ** Render modes *)

Lemma app_select_mode_mode (r : App.Renderer) :
  App.render_mode (App.select_mode r) =
    (if (4 <? App.render_mode r + 1)%Z then 0 else App.render_mode r + 1)%Z.
Proof.
  unfold App.select_mode, App.MODE_SOLID_SHADED. cbn.
  by destruct (4 <? App.render_mode r + 1)%Z.
Qed.

Lemma root_select_mode_mode (r : Root.Renderer) :
  Root.render_mode (Root.select_mode r) =
    (if (Root.render_mode r =? 0)%Z then 1
     else if (Root.render_mode r =? 1)%Z then 2
     else if (Root.render_mode r =? 2)%Z then 3
     else if (Root.render_mode r =? 3)%Z then 0
     else Root.render_mode r)%Z.
Proof.
  unfold Root.select_mode, Root.MODE_POINT_CLOUD, Root.MODE_WIREFRAME_FULL,
    Root.MODE_WIREFRAME_BACK_FACE_CULLING, Root.MODE_SOLID.
  repeat case_match; reflexivity.
Qed.

(** C8.  Starting from point-cloud mode, as many invocations of
    [select_mode] as there are render modes (five in [src/app/__init__.py],
    four in [src/__init__.py]) lead back to point-cloud mode, and no smaller
    positive number of invocations does. *)
Theorem select_mode_cycle :
  (∀ r : App.Renderer,
     App.render_mode r = App.MODE_POINT_CLOUD →
     App.render_mode (Nat.iter 5 App.select_mode r) = App.MODE_POINT_CLOUD ∧
     ∀ k : nat, (0 < k < 5)%nat →
       App.render_mode (Nat.iter k App.select_mode r)
         ≠ App.MODE_POINT_CLOUD) ∧
  (∀ r : Root.Renderer,
     Root.render_mode r = Root.MODE_POINT_CLOUD →
     Root.render_mode (Nat.iter 4 Root.select_mode r)
       = Root.MODE_POINT_CLOUD ∧
     ∀ k : nat, (0 < k < 4)%nat →
       Root.render_mode (Nat.iter k Root.select_mode r)
         ≠ Root.MODE_POINT_CLOUD).
Proof.
  split; intros r Hr.
  - unfold App.MODE_POINT_CLOUD in *. split.
    + cbn [Nat.iter nat_rect]. rewrite !app_select_mode_mode, Hr. reflexivity.
    + intros k Hk.
      destruct k as [|[|[|[|[|k]]]]]; try lia;
        cbn [Nat.iter nat_rect]; rewrite !app_select_mode_mode, Hr; by vm_compute.
  - unfold Root.MODE_POINT_CLOUD in *. split.
    + cbn [Nat.iter nat_rect]. rewrite !root_select_mode_mode, Hr. reflexivity.
    + intros k Hk.
      destruct k as [|[|[|[|k]]]]; try lia;
        cbn [Nat.iter nat_rect]; rewrite !root_select_mode_mode, Hr; by vm_compute.
Qed.

Lemma select_mode_cycle_witness :
  App.render_mode
    (Nat.iter 5 App.select_mode (App.set_render_mode Examples.app0 0))
    = App.MODE_POINT_CLOUD ∧
  App.render_mode
    (Nat.iter 3 App.select_mode (App.set_render_mode Examples.app0 0))
    ≠ App.MODE_POINT_CLOUD ∧
  Root.render_mode (Nat.iter 4 Root.select_mode Examples.root0)
    = Root.MODE_POINT_CLOUD ∧
  Root.render_mode (Nat.iter 2 Root.select_mode Examples.root0)
    ≠ Root.MODE_POINT_CLOUD.
Proof.
  destruct select_mode_cycle as [HA HR].
  destruct (HA (App.set_render_mode Examples.app0 0) eq_refl) as [HA5 HAk].
  destruct (HR Examples.root0 eq_refl) as [HR4 HRk].
  split; [exact HA5|]. split; [apply HAk; lia|].
  split; [exact HR4|]. apply HRk; lia.
Defined.

Lemma app_handle_mode (load : string → App.Mesh)
    (e : App.Event) (r r' : App.Renderer) :
  App.handle load e r = Some r' →
  r' = App.select_mode r ∨ App.render_mode r' = App.render_mode r.
Proof.
  unfold App.handle, App.button_up, App.button_down, App.button_left,
    App.button_right, App.update.
  intros E. repeat case_match; simplify_option_eq; auto.
Qed.

Lemma root_handle_mode (mesh_update : Root.Mesh → option Root.Mesh)
    (e : Root.Event) (r r' : Root.Renderer) :
  Root.handle mesh_update e r = Some r' →
  r' = Root.select_mode r ∨ Root.render_mode r' = Root.render_mode r.
Proof.
  unfold Root.handle, Root.button_up, Root.button_down, Root.button_left,
    Root.button_right, Root.update, Root.kill_velocity.
  intros E. repeat case_match; simplify_option_eq; auto.
Qed.

(** C10.  [render_mode] always holds a defined mode.  In
    [src/app/__init__.py] it starts at [MODE_SOLID_SHADED], [select_mode]
    maps the range 0..4 into itself and no other handler writes the field,
    so every state the application can reach has a mode among the five
    constants.  The same holds in [src/__init__.py] for its four constants
    0..3. *)
Theorem render_mode_defined :
  (∀ r : App.Renderer,
     (0 ≤ App.render_mode r ≤ App.MODE_SOLID_SHADED)%Z →
     (0 ≤ App.render_mode (App.select_mode r) ≤ App.MODE_SOLID_SHADED)%Z) ∧
  (∀ (T : Tidal3D) (P : PyMath) (load : string → App.Mesh)
     (width height : Z) (r : App.Renderer),
     App.reachable load width height r →
     (0 ≤ App.render_mode r ≤ App.MODE_SOLID_SHADED)%Z) ∧
  (∀ r : Root.Renderer,
     (0 ≤ Root.render_mode r ≤ Root.MODE_SOLID)%Z →
     (0 ≤ Root.render_mode (Root.select_mode r) ≤ Root.MODE_SOLID)%Z) ∧
  (∀ (M : Math3D) (persp : Q → Q → Q → Q → Mat)
     (load : string → Root.Mesh)
     (mesh_update : Root.Mesh → option Root.Mesh)
     (width height : Z) (r : Root.Renderer),
     Root.reachable persp load mesh_update width height r →
     (0 ≤ Root.render_mode r ≤ Root.MODE_SOLID)%Z).
Proof.
  assert (∀ r : App.Renderer,
    (0 ≤ App.render_mode r ≤ 4)%Z →
    (0 ≤ App.render_mode (App.select_mode r) ≤ 4)%Z) as HA.
  { intros r Hr. rewrite app_select_mode_mode.
    destruct (Z.ltb_spec 4 (App.render_mode r + 1)); lia. }
  assert (∀ r : Root.Renderer,
    (0 ≤ Root.render_mode r ≤ 3)%Z →
    (0 ≤ Root.render_mode (Root.select_mode r) ≤ 3)%Z) as HR.
  { intros r Hr. rewrite root_select_mode_mode.
    repeat case_match; lia. }
  unfold App.MODE_SOLID_SHADED, Root.MODE_SOLID.
  split; [exact HA|]. split; [|split; [exact HR|]].
  - intros T P load width height r Hreach.
    induction Hreach as [r Hinit|r e r' _ IH Hstep].
    + unfold App.init in Hinit. simplify_option_eq. cbn.
      unfold App.MODE_SOLID_SHADED. lia.
    + destruct (app_handle_mode _ _ _ _ Hstep) as [-> | ->]; auto.
  - intros M persp load mesh_update width height r Hreach.
    induction Hreach as [r Hinit|r e r' _ IH Hstep].
    + unfold Root.init in Hinit. simplify_option_eq. cbn.
      unfold Root.MODE_POINT_CLOUD. lia.
    + destruct (root_handle_mode _ _ _ _ Hstep) as [-> | ->]; auto.
Qed.

Lemma render_mode_defined_witness :
  (0 ≤ App.render_mode (App.select_mode Examples.app0) ≤ 4)%Z ∧
  (0 ≤ App.render_mode Examples.app0 ≤ 4)%Z ∧
  (0 ≤ Root.render_mode (Root.select_mode Examples.root0) ≤ 3)%Z ∧
  (0 ≤ Root.render_mode Examples.root0 ≤ 3)%Z.
Proof.
  destruct render_mode_defined as (HA & HAr & HR & HRr).
  assert (App.render_mode Examples.app0 = 4%Z) as EA by (vm_compute; reflexivity).
  assert (Root.render_mode Examples.root0 = 0%Z) as ER by (vm_compute; reflexivity).
  split; [apply HA; rewrite EA; unfold App.MODE_SOLID_SHADED; lia|].
  split.
  { apply (HAr Examples.tidal3d Examples.pymath Examples.app_load 135 240)%Z.
    apply App.reach_init. vm_compute. reflexivity. }
  split; [apply HR; rewrite ER; unfold Root.MODE_SOLID; lia|].
  apply (HRr Examples.math3d Examples.root_perspective Examples.root_load
           Examples.root_mesh_update 135 240)%Z.
  apply Root.reach_init. vm_compute. reflexivity.
Defined.

(** ** Angular velocity *)

Lemma app_mesh_update_angular (m m' : App.Mesh) (delta_t : Q) :
  App.mesh_update m delta_t = Some m' → App.angular m' = App.angular m.
Proof. unfold App.mesh_update. intros E. by simplify_option_eq. Qed.

Lemma app_mesh_update_Some (m : App.Mesh) (delta_t : Q) :
  length (App.orientation m) = 3%nat → length (App.angular m) = 3%nat →
  is_Some (App.mesh_update m delta_t).
Proof.
  destruct m as [vs ns fs cs p o a]. cbn. intros Ho Ha.
  destruct o as [|o0 [|o1 [|o2 [|]]]]; try discriminate.
  destruct a as [|a0 [|a1 [|a2 [|]]]]; try discriminate.
  by eexists.
Qed.

(** C9.  [button_left] stores the fixed value 45 (3 in [src/__init__.py])
    in the Y component of the angular velocity; [update], called while
    neither the rotate-left nor the rotate-right control is held, leaves
    exactly 0 there, whatever was stored before.  The meshes carry
    three-component orientation and angular velocity.  In
    [src/__init__.py], whose [Mesh.update()] is not among the sources, the
    velocity is 0 when that call is reached and stays 0 through any
    [Mesh.update()] that leaves the angular velocity alone. *)
Theorem angular_velocity_controls :
  (∀ r : App.Renderer,
     length (App.angular (App.mesh r)) = 3%nat →
     ∃ r', App.button_left r = Some r' ∧
           App.angular (App.mesh r') !! 1%nat = Some 45%Q ∧
           ¬ (45 == 0)%Q) ∧
  (∀ (held : Pin → bool) (delta_t : Q) (r : App.Renderer),
     length (App.angular (App.mesh r)) = 3%nat →
     length (App.orientation (App.mesh r)) = 3%nat →
     held JOY_LEFT = false → held JOY_RIGHT = false →
     ∃ r', App.update held delta_t r = Some r' ∧
           App.angular (App.mesh r') !! 1%nat = Some 0%Q) ∧
  (∀ r : Root.Renderer,
     length (Root.angular (Root.mesh r)) = 3%nat →
     ∃ r', Root.button_left r = Some r' ∧
           Root.angular (Root.mesh r') !! 1%nat = Some 3%Q ∧
           ¬ (3 == 0)%Q) ∧
  (∀ (held : Pin → bool) (r : Root.Renderer),
     length (Root.angular (Root.mesh r)) = 3%nat →
     held JOY_LEFT = false → held JOY_RIGHT = false →
     ∃ r', Root.kill_velocity held r = Some r' ∧
           Root.angular (Root.mesh r') !! 1%nat = Some 0%Q) ∧
  (∀ (mesh_update : Root.Mesh → option Root.Mesh) (held : Pin → bool)
     (r r' : Root.Renderer),
     length (Root.angular (Root.mesh r)) = 3%nat →
     held JOY_LEFT = false → held JOY_RIGHT = false →
     (∀ m m', mesh_update m = Some m' → Root.angular m' = Root.angular m) →
     Root.update mesh_update held r = Some r' →
     Root.angular (Root.mesh r') !! 1%nat = Some 0%Q).
Proof.
  assert (∀ (held : Pin → bool) (r : Root.Renderer),
     length (Root.angular (Root.mesh r)) = 3%nat →
     held JOY_LEFT = false → held JOY_RIGHT = false →
     ∃ r', Root.kill_velocity held r = Some r' ∧
           Root.angular (Root.mesh r') !! 1%nat = Some 0%Q) as HK.
  { intros held r Ha HL HR. unfold Root.kill_velocity.
    rewrite HL, HR. cbn [negb andb].
    rewrite py_setitem_Some by lia.
    cbn [fmap option_fmap option_map mbind option_bind].
    destruct (negb (held JOY_UP) && negb (held JOY_DOWN)).
    + rewrite py_setitem_Some by (cbn; rewrite length_insert; lia).
      cbn. eexists. split; [done|]. cbn.
      rewrite list_lookup_insert_ne by lia.
      apply list_lookup_insert_eq. lia.
    + cbn. eexists. split; [done|]. cbn.
      apply list_lookup_insert_eq. lia. }
  split; [|split; [|split; [|split; [exact HK|]]]].
  - intros r Hlen. unfold App.button_left.
    rewrite py_setitem_Some by lia. cbn. eexists. split; [done|].
    split; [|done]. apply list_lookup_insert_eq. lia.
  - intros held delta_t r Ha Ho HL HR. unfold App.update.
    rewrite HL, HR. cbn [negb andb].
    rewrite py_setitem_Some by lia.
    cbn [fmap option_fmap option_map mbind option_bind].
    set (m1 := App.set_angular (App.mesh r) _).
    assert (App.angular m1 !! 1%nat = Some 0%Q) as H1.
    { apply list_lookup_insert_eq. lia. }
    assert (length (App.angular m1) = 3%nat) as Ha1.
    { cbn. by rewrite length_insert. }
    assert (∃ m2, (if negb (held JOY_UP) && negb (held JOY_DOWN)
                   then App.set_angular m1 <$>
                          py_setitem (App.angular m1) 0 0%Q
                   else Some m1) = Some m2 ∧
                  App.angular m2 !! 1%nat = Some 0%Q ∧
                  length (App.angular m2) = 3%nat ∧
                  length (App.orientation m2) = 3%nat)
      as (m2 & -> & H2 & Ha2 & Ho2).
    { destruct (negb (held JOY_UP) && negb (held JOY_DOWN)).
      - rewrite py_setitem_Some by lia. eexists. split; [done|]. cbn.
        rewrite list_lookup_insert_ne by lia. rewrite length_insert.
        by rewrite length_insert.
      - by exists m1. }
    cbn [mbind option_bind].
    destruct (app_mesh_update_Some m2 delta_t Ho2 Ha2) as [m3 E3].
    rewrite E3. cbn. eexists. split; [done|]. cbn.
    by rewrite (app_mesh_update_angular _ _ _ E3).
  - intros r Hlen. unfold Root.button_left.
    rewrite py_setitem_Some by lia. cbn. eexists. split; [done|].
    split; [|done]. apply list_lookup_insert_eq. lia.
  - intros mesh_update held r r' Ha HL HR Hkeep E.
    destruct (HK held r Ha HL HR) as (r1 & E1 & H1).
    unfold Root.update in E. rewrite E1 in E. cbn in E.
    destruct (mesh_update (Root.mesh r1)) as [m|] eqn:Em; [|done].
    cbn in E. injection E as <-. cbn.
    by rewrite (Hkeep _ _ Em).
Qed.

Lemma angular_velocity_controls_witness :
  (∃ r', App.button_left Examples.app0 = Some r' ∧
         App.angular (App.mesh r') !! 1%nat = Some 45%Q ∧ ¬ (45 == 0)%Q) ∧
  (∃ r', App.update Examples.nobody (1 # 50) Examples.app_spinning
           = Some r' ∧
         App.angular (App.mesh r') !! 1%nat = Some 0%Q) ∧
  (∃ r', Root.button_left Examples.root0 = Some r' ∧
         Root.angular (Root.mesh r') !! 1%nat = Some 3%Q ∧ ¬ (3 == 0)%Q) ∧
  (∃ r', Root.kill_velocity Examples.nobody Examples.root_spinning
           = Some r' ∧
         Root.angular (Root.mesh r') !! 1%nat = Some 0%Q) ∧
  Root.angular
    (Root.mesh
       (default Examples.root_spinning
          (Root.update Examples.root_mesh_update Examples.nobody
             Examples.root_spinning))) !! 1%nat = Some 0%Q.
Proof.
  destruct angular_velocity_controls as (H1 & H2 & H3 & H4 & H5).
  split; [apply H1; vm_compute; reflexivity|].
  split; [apply H2; vm_compute; reflexivity|].
  split; [apply H3; vm_compute; reflexivity|].
  split; [apply H4; vm_compute; reflexivity|].
  apply (H5 Examples.root_mesh_update Examples.nobody Examples.root_spinning).
  - vm_compute. reflexivity.
  - reflexivity.
  - reflexivity.
  - intros m m' E. by injection E as <-.
  - vm_compute. reflexivity.
Defined.

(** ** The viewport test *)

Lemma vert_in_view_spec (v : Vec3) :
  vert_in_view v = true ↔ in_open_square v.
Proof.
  unfold vert_in_view, in_open_square.
  rewrite !andb_true_iff, !Qltb_lt. tauto.
Qed.

Lemma face_visible_spec (fv : list Vec3) :
  face_visible fv = true ↔ Exists in_open_square fv.
Proof.
  unfold face_visible. induction fv as [|v fv IH]; cbn.
  - rewrite Exists_nil. by split.
  - by rewrite orb_true_iff, Exists_cons, IH, vert_in_view_spec.
Qed.

Lemma face_visible_false (fv : list Vec3) :
  face_visible fv = false ↔ Forall (λ v, ¬ in_open_square v) fv.
Proof.
  rewrite <- not_true_iff_false, face_visible_spec.
  rewrite <- Forall_Exists_neg. tauto.
Qed.

Lemma app_dispatch_one `{Tidal3D} (r : App.Renderer) (coords : list Z)
    (colour : Z) :
  (0 ≤ App.render_mode r)%Z →
  ∃ call, App.dispatch r coords colour = [call] ∧ call_coords call = coords.
Proof.
  intros Hm. unfold App.dispatch, App.MODE_POINT_CLOUD,
    App.MODE_WIREFRAME_FULL, App.MODE_WIREFRAME_BACK_FACE_CULLING,
    App.MODE_SOLID.
  destruct (Z.eqb_spec (App.render_mode r) 0); [by eexists|].
  destruct (Z.eqb_spec (App.render_mode r) 1); [by eexists|].
  destruct (Z.eqb_spec (App.render_mode r) 2); [by eexists|].
  cbn [orb]. destruct (Z.leb_spec 3 (App.render_mode r)); [by eexists|lia].
Qed.

(** The claim C3 as it is worded fails on the boundary of the square: a
    face whose three projected vertices sit at NDC (1, 0) is skipped and
    issues no draw call, although every one of its vertices lies in the
    closed square [-1,1] x [-1,1], so that not all three lie outside it. *)
Lemma viewport_test_closed_square_fails :
  face_visible [mkVec3 1 0 0; mkVec3 1 0 0; mkVec3 1 0 0] = false ∧
  @App.draw_with Examples.tidal3d Examples.app0 [mkVec3 0 0 1]
    (App.mkFace (0, 1, 2)%nat 0 0)
    [mkVec3 1 0 0; mkVec3 1 0 0; mkVec3 1 0 0] = Some [] ∧
  Forall in_unit_square [mkVec3 1 0 0; mkVec3 1 0 0; mkVec3 1 0 0] ∧
  ¬ Forall (λ v, ¬ in_unit_square v)
      [mkVec3 1 0 0; mkVec3 1 0 0; mkVec3 1 0 0].
Proof.
  assert (in_unit_square (mkVec3 1 0 0)) as Hin.
  { repeat split; cbn; unfold Qle; cbn; lia. }
  split; [reflexivity|]. split; [reflexivity|].
  split; [by repeat constructor|].
  intros Hout. by inversion Hout.
Qed.

(** C3 (amended).  A face is skipped, issuing no draw call, exactly when
    none of its three projected vertices lies strictly inside the square,
    that is with -1 < x < 1 and -1 < y < 1; as soon as one vertex does, the
    whole face is submitted in one draw call that carries the screen
    coordinates of all its vertices.  Three vertices at NDC (2,2) are
    excluded; one vertex at (0,0) with two at (5,5) is included.  The
    earlier revision applies the same test before it converts and draws a
    face. *)
Theorem viewport_test (T : Tidal3D) (r : App.Renderer) (norms : list Vec3)
    (f : App.Face) (fv : list Vec3) (colour : Z) :
  (0 ≤ App.render_mode r)%Z →
  App.face_colour r norms f = Some colour →
  (face_visible fv = false ↔ Forall (λ v, ¬ in_open_square v) fv) ∧
  (App.draw_with r norms f fv = Some [] ↔ face_visible fv = false) ∧
  (face_visible fv = true →
     ∃ call, App.draw_with r norms f fv = Some [call] ∧
             call_coords call =
               v_ndc_to_screen fv (App.fb_width r) (App.fb_height r)) ∧
  (∀ (F : PyFloat) (white : Z) (r0 : Root.Renderer) (colour_index : nat),
     (face_visible fv = false →
        Root.draw_with white r0 colour_index fv = Some []) ∧
     (face_visible fv = true →
        Root.draw_with white r0 colour_index fv
          = Root.dispatch white r0 (Root.ndc_to_screen r0 <$> fv)
              colour_index)) ∧
  face_visible [mkVec3 2 2 0; mkVec3 2 2 0; mkVec3 2 2 0] = false ∧
  face_visible [mkVec3 0 0 0; mkVec3 5 5 0; mkVec3 5 5 0] = true.
Proof.
  intros Hm Hc.
  assert (face_visible fv = true →
     ∃ call, App.draw_with r norms f fv = Some [call] ∧
             call_coords call =
               v_ndc_to_screen fv (App.fb_width r) (App.fb_height r)) as HV.
  { intros Hv. unfold App.draw_with. rewrite Hv, Hc. cbn.
    destruct (app_dispatch_one r
      (v_ndc_to_screen fv (App.fb_width r) (App.fb_height r)) colour Hm)
      as (call & -> & Hcall).
    by exists call. }
  split; [apply face_visible_false|].
  split; [|split; [exact HV|split; [|by split]]].
  2: { intros F white r0 colour_index. unfold Root.draw_with.
       split; intros ->; reflexivity. }
  split.
  - intros E. destruct (face_visible fv) eqn:Hv; [|done].
    destruct (HV eq_refl) as (call & E' & _). congruence.
  - intros Hv. unfold App.draw_with. by rewrite Hv.
Qed.

Lemma viewport_test_witness :
  ∃ call,
    @App.draw_with Examples.tidal3d Examples.app0 [mkVec3 0 0 1]
      (App.mkFace (0, 1, 2)%nat 0 0)
      [mkVec3 0 0 0; mkVec3 5 5 0; mkVec3 5 5 0] = Some [call] ∧
    call_coords call = [67; 120; 405; -480; 405; -480]%Z.
Proof.
  destruct (viewport_test Examples.tidal3d Examples.app0 [mkVec3 0 0 1]
              (App.mkFace (0, 1, 2)%nat 0 0)
              [mkVec3 0 0 0; mkVec3 5 5 0; mkVec3 5 5 0] 20545%Z)
    as (_ & _ & HV & _).
  - vm_compute. discriminate.
  - vm_compute. reflexivity.
  - destruct (HV eq_refl) as (call & E & Hcall).
    exists call. split; [exact E|]. rewrite Hcall. vm_compute. reflexivity.
Defined.

Lemma root_dispatch_coords (WHITE : Z) (r : Root.Renderer)
    (coords : list (Z * Z)) (ci : nat) (calls : list Root.DrawCall) :
  Root.dispatch WHITE r coords ci = Some calls →
  Forall (λ c, match c with
               | Root.Points cs _ | Root.Polygon cs _ _ _
               | Root.FillPolygon cs _ _ _ => cs = coords
               end) calls.
Proof.
  unfold Root.dispatch. intros E.
  repeat case_match; simplify_option_eq; repeat constructor.
Qed.

(** The earlier revision applies the same test before it converts and
    draws a face. *)
Lemma root_viewport_test `{PyFloat} (WHITE : Z) (r : Root.Renderer)
    (ci : nat) (fv : list Vec3) :
  (face_visible fv = false → Root.draw_with WHITE r ci fv = Some []) ∧
  (face_visible fv = true →
     Root.draw_with WHITE r ci fv
       = Root.dispatch WHITE r (Root.ndc_to_screen r <$> fv) ci).
Proof. unfold Root.draw_with. split; intros ->; reflexivity. Qed.

(** ** Screen coordinates *)

(** C5.  [ndc_to_screen] returns the pair of integers obtained by
    truncating towards zero the floats [(ndc_x + 1) * 0.5 * width] and
    [(1 - (ndc_y + 1) * 0.5) * height], each computed in the float
    arithmetic of the platform, and these pairs are the coordinates of
    every draw call issued for a visible face. *)
Theorem ndc_to_screen_formula (F : PyFloat) (r : Root.Renderer)
    (ndc : Vec3) :
  let width := fl (inject_Z (Root.fb_width r)) in
  let height := fl (inject_Z (Root.fb_height r)) in
  truncation_of
    (fl (fl (fl (vx ndc + 1) * (1 # 2)) * width))
    (Root.ndc_to_screen r ndc).1 ∧
  truncation_of
    (fl (fl (1 - fl (fl (vy ndc + 1) * (1 # 2))) * height))
    (Root.ndc_to_screen r ndc).2 ∧
  ∀ (WHITE : Z) (ci : nat) (fv : list Vec3) (calls : list Root.DrawCall),
    Root.draw_with WHITE r ci fv = Some calls →
    Forall (λ c, match c with
                 | Root.Points cs _ | Root.Polygon cs _ _ _
                 | Root.FillPolygon cs _ _ _ =>
                     cs = Root.ndc_to_screen r <$> fv
                 end) calls.
Proof.
  cbn zeta.
  split; [apply py_int_truncates|]. split; [apply py_int_truncates|].
  intros WHITE ci fv calls E. unfold Root.draw_with in E.
  destruct (face_visible fv); cbn in E.
  - by apply root_dispatch_coords in E.
  - simplify_eq. constructor.
Qed.

Lemma ndc_to_screen_formula_witness :
  Forall (λ c, match c with
               | Root.Points cs _ | Root.Polygon cs _ _ _
               | Root.FillPolygon cs _ _ _ =>
                   cs = [(67, 120); (0, 240); (135, 240)]%Z
               end)
    [Root.Points [(67, 120); (0, 240); (135, 240)]%Z 65535].
Proof.
  destruct (ndc_to_screen_formula binary64 Examples.root0
              (mkVec3 0 0 0)) as (_ & _ & H).
  apply (H 65535%Z 0%nat
           [mkVec3 0 0 0; mkVec3 (-1) (-1) 0;
            mkVec3 (1 - (1 # 9007199254740992))
                   (-1 + (1 # 9007199254740992)) 0]).
  vm_compute. reflexivity.
Defined.

(** ** The projection matrix *)

Lemma py_div_Some (a b : Q) : ¬ (b == 0)%Q → py_div a b = Some (a / b)%Q.
Proof.
  intros Hb. unfold py_div.
  destruct (Qeq_bool b 0) eqn:E; [|done].
  by apply Qeq_bool_iff in E.
Qed.

Lemma py_div_inv (a b q : Q) :
  py_div a b = Some q → ¬ (b == 0)%Q ∧ q = (a / b)%Q.
Proof.
  unfold py_div. destruct (Qeq_bool b 0) eqn:E; [done|].
  intros [= <-]. split; [|done]. by apply Qeq_bool_neq.
Qed.

Lemma perspective_matrix_inv `{PyMath} (fov aspect near far : Q) (m : Mat) :
  App.perspective_matrix fov aspect near far = Some m →
  let scale := tan (radians (fov * (1 # 2))) in
  m = [1 / (scale * aspect); 0; 0; 0;
       0; 1 / scale; 0; 0;
       0; 0; - far / (far - near); -1;
       0; 0; - far * near / (far - near); 0]%Q.
Proof.
  unfold App.perspective_matrix. intros E. cbn zeta.
  destruct (py_div 1 (_ * aspect)) as [x|] eqn:Ex; cbn in E; [|done].
  destruct (py_div 1 _) as [y|] eqn:Ey in E; cbn in E; [|done].
  destruct (py_div (- far) _) as [zs|] eqn:Ezs; cbn in E; [|done].
  destruct (py_div (- far * near) _) as [zo|] eqn:Ezo; cbn in E; [|done].
  apply py_div_inv in Ex as [_ ->], Ey as [_ ->], Ezs as [_ ->],
    Ezo as [_ ->].
  by injection E as <-.
Qed.

(** C4.  Whenever the divisors are nonzero, [perspective_matrix] returns a
    16-entry matrix whose y scale, in slot (1,1), is [1 / tan(fov / 2)];
    whose x scale, in slot (0,0), is the y scale divided by the aspect
    ratio; which holds [-1] in slot (3,2) and [0] in slot (3,3); and in
    which [near] and [far] reach the z scale (2,2) and the z offset (2,3)
    and no other entry. *)
Theorem perspective_matrix_entries (P : PyMath) (fov aspect near far : Q) :
  let scale := tan (radians (fov * (1 # 2))) in
  ¬ (scale * aspect == 0)%Q → ¬ (far - near == 0)%Q →
  ∃ (m : Mat) (x y : Q),
    App.perspective_matrix fov aspect near far = Some m ∧
    length m = 16%nat ∧
    m !! mat_slot 1 1 = Some y ∧ y = (1 / scale)%Q ∧
    m !! mat_slot 0 0 = Some x ∧ (x == y / aspect)%Q ∧
    m !! mat_slot 3 2 = Some (-1)%Q ∧
    m !! mat_slot 3 3 = Some 0%Q ∧
    m !! mat_slot 2 2 = Some (- far / (far - near))%Q ∧
    m !! mat_slot 2 3 = Some (- far * near / (far - near))%Q ∧
    ∀ (near' far' : Q) (m' : Mat),
      App.perspective_matrix fov aspect near' far' = Some m' →
      ∀ i : nat, i ≠ mat_slot 2 2 → i ≠ mat_slot 2 3 → m' !! i = m !! i.
Proof.
  intros scale Hsa Hfn.
  assert (¬ (scale == 0)%Q) as Hs.
  { intros E. apply Hsa. rewrite E. ring. }
  assert (¬ (aspect == 0)%Q) as Ha.
  { intros E. apply Hsa. rewrite E. ring. }
  assert (App.perspective_matrix fov aspect near far =
          Some [1 / (scale * aspect); 0; 0; 0;
                0; 1 / scale; 0; 0;
                0; 0; - far / (far - near); -1;
                0; 0; - far * near / (far - near); 0]%Q) as E.
  { unfold App.perspective_matrix. fold scale.
    by rewrite !py_div_Some. }
  eexists _, _, _. split; [exact E|].
  do 4 (split; [reflexivity|]).
  split; [by field|].
  do 4 (split; [reflexivity|]).
  intros near' far' m' E' i H10 H14.
  apply perspective_matrix_inv in E'. cbn zeta in E'. fold scale in E'.
  subst m'. unfold mat_slot in *.
  do 16 (destruct i as [|i]; [done|]). reflexivity.
Qed.

Lemma perspective_matrix_entries_witness :
  ∃ (m : Mat) (x y : Q),
    @App.perspective_matrix Examples.pymath 90 (135 # 240) (1 # 10) 100
      = Some m ∧
    m !! 5%nat = Some y ∧ m !! 0%nat = Some x ∧
    (x == y / (135 # 240))%Q ∧
    m !! 11%nat = Some (-1)%Q ∧ m !! 15%nat = Some 0%Q.
Proof.
  destruct (perspective_matrix_entries Examples.pymath 90 (135 # 240)
              (1 # 10) 100) as (m & x & y & E & _ & Hy & _ & Hx & Hxy &
                                H11 & H15 & _).
  - vm_compute. discriminate.
  - vm_compute. discriminate.
  - exists m, x, y. repeat split; assumption.
Defined.

(** ** Lighting *)

(** C6.  In solid-shaded mode, a visible face is drawn as one filled
    polygon whose colour is [color565] of the three channels of the face
    colour scaled by [intensity = - dot(normal, light)], each truncated to
    an integer and raised to the floor 8. *)
Theorem solid_shaded_fill (T : Tidal3D) (r : App.Renderer)
    (norms : list Vec3) (f : App.Face) (fv : list Vec3) (n c : Vec3) :
  App.render_mode r = App.MODE_SOLID_SHADED →
  face_visible fv = true →
  norms !! App.norm_index f = Some n →
  App.colours (App.mesh r) !! App.col_index f = Some c →
  let intensity := (- v_dot n (App.v_light r))%Q in
  let rgb := v_scale c intensity in
  let red := Z.max (py_int (vx rgb)) 8 in
  let green := Z.max (py_int (vy rgb)) 8 in
  let blue := Z.max (py_int (vz rgb)) 8 in
  App.draw_with r norms f fv =
    Some [DrawPolygon
            (v_ndc_to_screen fv (App.fb_width r) (App.fb_height r))
            (color565 (inject_Z red) (inject_Z green) (inject_Z blue))
            true] ∧
  (8 ≤ red)%Z ∧ (8 ≤ green)%Z ∧ (8 ≤ blue)%Z ∧
  ((8 ≤ py_int (vx rgb))%Z → red = py_int (vx rgb)) ∧
  ((8 ≤ py_int (vy rgb))%Z → green = py_int (vy rgb)) ∧
  ((8 ≤ py_int (vz rgb))%Z → blue = py_int (vz rgb)).
Proof.
  intros Hm Hv Hn Hc. cbn zeta. split; [|lia].
  unfold App.draw_with, App.face_colour, App.shaded_colour, App.dispatch.
  rewrite Hv, Hm, Hn. cbn. by rewrite Hc.
Qed.

Lemma solid_shaded_fill_witness :
  @App.draw_with Examples.tidal3d Examples.app0
    [mkVec3 0 0 1; mkVec3 0 0 (-1)] (App.mkFace (0, 1, 2)%nat 0 0)
    [mkVec3 0 0 0; mkVec3 5 5 0; mkVec3 5 5 0]
  = Some [DrawPolygon [67; 120; 405; -480; 405; -480]%Z 20545 true].
Proof.
  destruct (solid_shaded_fill Examples.tidal3d Examples.app0
              [mkVec3 0 0 1; mkVec3 0 0 (-1)] (App.mkFace (0, 1, 2)%nat 0 0)
              [mkVec3 0 0 0; mkVec3 5 5 0; mkVec3 5 5 0]
              (mkVec3 0 0 1) (mkVec3 255 0 0)) as [E _].
  - vm_compute. reflexivity.
  - vm_compute. reflexivity.
  - reflexivity.
  - reflexivity.
  - rewrite E. vm_compute. reflexivity.
Defined.

(** ** The depth sort *)

Section SortFacts.
Context {A : Type} (key : A → Q).

Let key_le (a b : A) : Prop := (key a <= key b)%Q.

Lemma sort_insert_perm (x : A) (l : list A) :
  sort_insert key x l ≡ₚ x :: l.
Proof.
  induction l as [|y l IH]; cbn; [done|].
  destruct (Qltb (key y) (key x)); [|done].
  rewrite IH. apply perm_swap.
Qed.

Lemma py_sort_perm (l : list A) : py_sort key l ≡ₚ l.
Proof.
  induction l as [|x l IH]; cbn; [done|].
  by rewrite sort_insert_perm, IH.
Qed.

Lemma sort_insert_HdRel (y x : A) (l : list A) :
  key_le y x → HdRel key_le y l → HdRel key_le y (sort_insert key x l).
Proof.
  intros Hyx Hl. destruct l as [|z l]; cbn; [by constructor|].
  destruct (Qltb (key z) (key x)); constructor; [|done].
  by inversion Hl.
Qed.

Lemma sort_insert_sorted (x : A) (l : list A) :
  Sorted key_le l → Sorted key_le (sort_insert key x l).
Proof.
  induction 1 as [|y l Hl IH Hy]; cbn; [by repeat constructor|].
  destruct (Qltb (key y) (key x)) eqn:E.
  - constructor; [done|]. apply sort_insert_HdRel; [|done].
    apply Qltb_lt in E. by apply Qlt_le_weak.
  - apply Qltb_ge in E. repeat constructor; done.
Qed.

Lemma py_sort_sorted (l : list A) : Sorted key_le (py_sort key l).
Proof.
  induction l as [|x l IH]; cbn; [constructor|].
  by apply sort_insert_sorted.
Qed.
End SortFacts.

Lemma mapM_concat_inv {A B} (f : A → option (list B)) (l : list A)
    (out : list B) :
  @concat B <$> mapM f l = Some out →
  ∃ outs, Forall2 (λ x o, f x = Some o) l outs ∧ out = concat outs.
Proof.
  intros E. destruct (mapM f l) as [outs|] eqn:EM; [|done].
  cbn in E. injection E as <-. exists outs. split; [|done].
  by apply mapM_Some_1.
Qed.

(** Every recorded face carries the camera-space z of its own centre. *)
Lemma collect_depths `{Tidal3D} (r : App.Renderer) (norms verts : list Vec3)
    (fs : list App.Face) (st0 st : list (option Vec3) * list App.FaceRec) :
  let recorded (fr : App.FaceRec) :=
    ∃ centre, App.face_centre verts fr.1 = Some centre ∧
              App.depth fr = vz (v_multiply centre (App.m_view r)) in
  foldlM (App.visit_face r norms verts) fs st0 = Some st →
  Forall recorded st0.2 → Forall recorded st.2.
Proof.
  intros recorded. revert st0.
  induction fs as [|f fs IH]; intros st0 E H0.
  - cbn in E. by injection E as <-.
  - cbn [foldlM] in E.
    destruct (App.visit_face r norms verts st0 f) as [st1|] eqn:E1; [|done].
    cbn in E. apply (IH st1 E). clear IH E.
    unfold App.visit_face in E1.
    destruct (App.face_centre verts f) as [centre|] eqn:Ec; [|done].
    cbn in E1.
    destruct (App.face_dot r norms centre f) as [dot|]; [|done].
    cbn in E1. destruct (App.cull_test r dot); [by injection E1 as <-|].
    destruct (App.indices f) as [[i0 i1] i2].
    apply bind_Some in E1 as (pv & _ & E1). injection E1 as <-. cbn.
    apply Forall_app. split; [done|].
    constructor; [|constructor]. by exists centre.
Qed.

(** C2.  The faces that survive culling are sorted by ascending depth
    before the drawing loop runs over them: the list the loop receives is
    ordered by [<=] on depth and is a rearrangement of the collected faces,
    the depth of a face is the camera-space z of its centre, the draw calls
    of a frame are those of its faces in that order, and depths
    [-10, -5, -20] come out as [-20, -10, -5]. *)
Theorem depth_sort :
  (∀ fs : list App.FaceRec,
     Sorted depth_le (App.sort_faces fs) ∧ App.sort_faces fs ≡ₚ fs) ∧
  (∀ f1 f2 f3 : App.Face,
     App.depth <$> App.sort_faces [(f1, -10); (f2, -5); (f3, -20)]%Q
       = [-20; -10; -5]%Q) ∧
  (∀ (T : Tidal3D) (r : App.Renderer) (calls : list DrawCall),
     App.render_scene r = Some calls →
     ∃ (pv : list (option Vec3)) (fs : list App.FaceRec)
       (per_face : list (list DrawCall)),
       App.collect_faces r (App.world_norms (App.mesh r))
         (App.world_verts (App.mesh r)) (App.faces (App.mesh r))
         = Some (pv, fs) ∧
       Forall
         (λ fr,
            ∃ centre,
              App.face_centre (App.world_verts (App.mesh r)) fr.1
                = Some centre ∧
              App.depth fr = vz (v_multiply centre (App.m_view r)))
         (App.sort_faces fs) ∧
       Forall2
         (λ fr cs,
            App.draw_face r (App.world_norms (App.mesh r)) pv fr = Some cs)
         (App.sort_faces fs) per_face ∧
       calls = concat per_face).
Proof.
  split; [|split].
  - intros fs. split; [apply py_sort_sorted|apply py_sort_perm].
  - intros f1 f2 f3. reflexivity.
  - intros T r calls E. unfold App.render_scene in E. cbn zeta in E.
    destruct (App.collect_faces _ _ _ _) as [[pv fs]|] eqn:EC; [|done].
    cbn in E. apply mapM_concat_inv in E as (per_face & HF & ->).
    exists pv, fs, per_face. split; [done|]. split; [|done].
    rewrite (py_sort_perm App.depth fs).
    by apply (collect_depths r _ _ _ _ _ EC).
Qed.

Lemma depth_sort_witness :
  ∃ (pv : list (option Vec3)) (fs : list App.FaceRec)
    (per_face : list (list DrawCall)),
    @App.collect_faces Examples.tidal3d Examples.app_two_depths
      (@App.world_norms Examples.tidal3d Examples.two_depths)
      (@App.world_verts Examples.tidal3d Examples.two_depths)
      (App.faces Examples.two_depths) = Some (pv, fs) ∧
    Forall
      (λ fr,
         ∃ centre,
           @App.face_centre Examples.tidal3d
             (@App.world_verts Examples.tidal3d Examples.two_depths) fr.1
             = Some centre ∧
           App.depth fr
             = vz (Examples.q_multiply centre (App.m_view Examples.app0)))
      (App.sort_faces fs) ∧
    Forall2
      (λ fr cs,
         @App.draw_face Examples.tidal3d Examples.app_two_depths
           (@App.world_norms Examples.tidal3d Examples.two_depths) pv fr
           = Some cs)
      (App.sort_faces fs) per_face ∧
    [DrawPolygon [40; 147; 94; 147; 67; 92]%Z 2016 true;
     DrawPolygon [32; 154; 102; 154; 67; 85]%Z 63488 true]
      = concat per_face.
Proof.
  destruct depth_sort as (_ & _ & H).
  apply (H Examples.tidal3d Examples.app_two_depths).
  vm_compute. reflexivity.
Defined.

(** ** Back-face culling *)

Section AppCulling.
Context `{Tidal3D}.
Context (r : App.Renderer) (norms verts : list Vec3).

Lemma foldlM_cons {A S} (body : S → A → option S) (x : A) (l : list A)
    (s : S) :
  foldlM body (x :: l) s = body s x ≫= foldlM body l.
Proof. reflexivity. Qed.

Lemma visit_face_culled (st : list (option Vec3) * list App.FaceRec)
    (f : App.Face) :
  app_culled r norms verts f = true →
  App.visit_face r norms verts st f = Some st.
Proof.
  unfold app_culled, App.visit_face.
  destruct (App.face_centre verts f) as [centre|]; cbn; [|done].
  destruct (App.face_dot r norms centre f) as [dot|]; cbn; [|done].
  by intros ->.
Qed.

Lemma visit_face_kept (st st' : list (option Vec3) * list App.FaceRec)
    (f : App.Face) :
  app_culled r norms verts f = false →
  App.visit_face r norms verts st f = Some st' →
  ∃ d, st'.2 = st.2 ++ [(f, d)].
Proof.
  unfold app_culled, App.visit_face.
  destruct (App.face_centre verts f) as [centre|]; cbn; [|done].
  destruct (App.face_dot r norms centre f) as [dot|]; cbn; [|done].
  intros ->. destruct (App.indices f) as [[i0 i1] i2].
  intros E. simplify_option_eq. by eexists.
Qed.

Lemma collect_skips_culled (fs : list App.Face)
    (st0 st : list (option Vec3) * list App.FaceRec) :
  foldlM (App.visit_face r norms verts) fs st0 = Some st →
  foldlM (App.visit_face r norms verts)
    (filter (λ f, app_culled r norms verts f = false) fs) st0 = Some st ∧
  st.2.*1 =
    st0.2.*1 ++ filter (λ f, app_culled r norms verts f = false) fs.
Proof.
  revert st0. induction fs as [|f fs IH]; intros st0 E.
  - cbn in E. injection E as <-. by rewrite app_nil_r.
  - rewrite foldlM_cons in E.
    destruct (App.visit_face r norms verts st0 f) as [st1|] eqn:E1;
      [|done].
    cbn in E. destruct (IH _ E) as [IH1 IH2].
    destruct (app_culled r norms verts f) eqn:Ec.
    + rewrite visit_face_culled in E1 by done. injection E1 as <-.
      rewrite filter_cons_False by (by rewrite Ec). done.
    + rewrite filter_cons_True by done.
      rewrite foldlM_cons, E1. cbn. split; [done|].
      destruct (visit_face_kept _ _ _ Ec E1) as [d Hd].
      rewrite IH2, Hd, fmap_app. cbn. by rewrite <- app_assoc.
Qed.
End AppCulling.

(** ** The projected-vertex cache *)

Section AppCache.
Context `{Tidal3D}.
Context (r : App.Renderer) (norms verts : list Vec3).

(** What the collecting loop maintains: the cache is as long as the
    vertex list, its filled entries are projections, and the vertices of
    every recorded face are filled in. *)
Let inv (pv : list (option Vec3)) (acc : list App.FaceRec) : Prop :=
  length pv = length verts ∧ cache_sound r verts pv ∧
  Forall (λ fr, face_cached r verts pv fr.1) acc.

Lemma cache_sound_init :
  cache_sound r verts (replicate (length verts) None).
Proof.
  intros i p Hi. apply lookup_replicate in Hi as [? _]. done.
Qed.

Lemma project_index_spec (pv : list (option Vec3)) (i : nat) (v : Vec3) :
  length pv = length verts → cache_sound r verts pv →
  verts !! i = Some v →
  ∃ pv', App.project_index r verts pv i = Some pv' ∧
         length pv' = length verts ∧ cache_sound r verts pv' ∧
         vert_cached r verts pv' i ∧
         ∀ j, vert_cached r verts pv j → vert_cached r verts pv' j.
Proof.
  intros Hlen Hsound Hv. unfold App.project_index.
  assert (i < length pv)%nat as Hi.
  { rewrite Hlen. by eapply lookup_lt_Some. }
  destruct (lookup_lt_is_Some_2 pv i Hi) as [cached Hc].
  rewrite Hc. cbn. destruct cached as [p|].
  - exists pv. repeat split; try done.
    destruct (Hsound i p Hc) as (v' & Hv' & ->).
    exists v. split; [done|]. congruence.
  - rewrite Hv. cbn. rewrite py_setitem_Some by done.
    eexists. split; [done|]. split; [by rewrite length_insert|].
    split; [|split].
    + intros j p Hj. destruct (decide (i = j)) as [->|Hne].
      * rewrite list_lookup_insert_eq in Hj by done.
        exists v. split; [done|]. congruence.
      * rewrite list_lookup_insert_ne in Hj by done. by apply Hsound.
    + exists v. split; [done|]. by rewrite list_lookup_insert_eq.
    + intros j (w & Hw & Hj). exists w. split; [done|].
      destruct (decide (i = j)) as [->|Hne]; [congruence|].
      by rewrite list_lookup_insert_ne.
Qed.

Lemma project_indices_spec (l : list nat) (pv : list (option Vec3)) :
  length pv = length verts → cache_sound r verts pv →
  Forall (λ i, is_Some (verts !! i)) l →
  ∃ pv', foldlM (App.project_index r verts) l pv = Some pv' ∧
         length pv' = length verts ∧ cache_sound r verts pv' ∧
         Forall (vert_cached r verts pv') l ∧
         ∀ j, vert_cached r verts pv j → vert_cached r verts pv' j.
Proof.
  revert pv. induction l as [|i l IH]; intros pv Hlen Hsound Hl.
  - exists pv. by repeat split.
  - apply Forall_cons in Hl as [[v Hv] Hl].
    destruct (project_index_spec pv i v Hlen Hsound Hv)
      as (pv1 & E1 & Hlen1 & Hsound1 & Hi1 & Hmono1).
    destruct (IH pv1 Hlen1 Hsound1 Hl)
      as (pv2 & E2 & Hlen2 & Hsound2 & Hl2 & Hmono2).
    exists pv2. rewrite foldlM_cons, E1. cbn.
    repeat split; try done.
    + constructor; [by apply Hmono2|done].
    + intros j Hj. by apply Hmono2, Hmono1.
Qed.

Lemma face_centre_Some (f : App.Face) (centre : Vec3) :
  App.face_centre verts f = Some centre →
  is_Some (verts !! (App.indices f).1.1) ∧
  is_Some (verts !! (App.indices f).1.2) ∧
  is_Some (verts !! (App.indices f).2).
Proof.
  unfold App.face_centre. destruct (App.indices f) as [[i0 i1] i2]. cbn.
  intros E. simplify_option_eq. eauto.
Qed.

(** One iteration with the cache does to the face list what the
    iteration without it does, and fails when it fails. *)
Lemma visit_face_sim (pv : list (option Vec3)) (acc : list App.FaceRec)
    (f : App.Face) :
  inv pv acc →
  match App.visit_face_direct r norms verts acc f with
  | Some acc' =>
      ∃ pv', App.visit_face r norms verts (pv, acc) f = Some (pv', acc') ∧
             inv pv' acc'
  | None => App.visit_face r norms verts (pv, acc) f = None
  end.
Proof.
  intros (Hlen & Hsound & Hacc).
  unfold App.visit_face_direct, App.visit_face.
  destruct (App.face_centre verts f) as [centre|] eqn:Ec; cbn; [|done].
  destruct (App.face_dot r norms centre f) as [dot|]; cbn; [|done].
  destruct (App.cull_test r dot).
  { exists pv. by repeat split. }
  apply face_centre_Some in Ec as (H0 & H1 & H2).
  unfold face_cached.
  destruct (App.indices f) as [[i0 i1] i2] eqn:Ei. cbn in H0, H1, H2.
  destruct (project_indices_spec [i0; i1; i2] pv Hlen Hsound)
    as (pv' & E & Hlen' & Hsound' & Hl & Hmono).
  { by repeat constructor. }
  cbn in E. rewrite E. cbn. exists pv'. split; [done|].
  split; [done|]. split; [done|].
  apply Forall_app. split.
  - eapply Forall_impl; [exact Hacc|].
    intros fr (? & ? & ?). unfold face_cached. auto.
  - constructor; [|constructor]. unfold face_cached. cbn. rewrite Ei. cbn.
    inversion Hl as [|? ? ? Hl1]; subst.
    inversion Hl1 as [|? ? ? Hl2]; subst.
    by inversion Hl2; subst.
Qed.

Lemma collect_sim (fs : list App.Face) (pv : list (option Vec3))
    (acc : list App.FaceRec) :
  inv pv acc →
  match foldlM (App.visit_face_direct r norms verts) fs acc with
  | Some acc' =>
      ∃ pv', foldlM (App.visit_face r norms verts) fs (pv, acc)
               = Some (pv', acc') ∧
             inv pv' acc'
  | None => foldlM (App.visit_face r norms verts) fs (pv, acc) = None
  end.
Proof.
  revert pv acc. induction fs as [|f fs IH]; intros pv acc Hinv.
  - cbn. by exists pv.
  - rewrite !foldlM_cons. pose proof (visit_face_sim pv acc f Hinv) as Hs.
    destruct (App.visit_face_direct r norms verts acc f) as [acc1|]; cbn.
    + destruct Hs as (pv1 & -> & Hinv1). cbn. by apply IH.
    + by rewrite Hs.
Qed.

Lemma face_verts_cached (pv : list (option Vec3)) (f : App.Face) :
  face_cached r verts pv f →
  App.face_verts pv f = App.face_verts_direct r verts f ∧
  is_Some (App.face_verts pv f).
Proof.
  unfold face_cached, App.face_verts, App.face_verts_direct,
    App.cached_vert.
  destruct (App.indices f) as [[i0 i1] i2]. cbn.
  intros ((v0 & Hv0 & Hp0) & (v1 & Hv1 & Hp1) & (v2 & Hv2 & Hp2)).
  rewrite Hv0, Hv1, Hv2, Hp0, Hp1, Hp2. cbn. by split.
Qed.

Lemma collect_sound (fs : list App.Face)
    (st : list (option Vec3) * list App.FaceRec) :
  App.collect_faces r norms verts fs = Some st →
  cache_sound r verts st.1 ∧
  Forall (λ fr, face_cached r verts st.1 fr.1) st.2.
Proof.
  unfold App.collect_faces. intros E.
  assert (inv (replicate (length verts) None) []) as Hinv.
  { split; [by rewrite length_replicate|].
    split; [apply cache_sound_init|constructor]. }
  pose proof (collect_sim fs _ _ Hinv) as Hs.
  destruct (foldlM (App.visit_face_direct r norms verts) fs [])
    as [acc'|].
  - destruct Hs as (pv' & E' & _ & Hsound & Hacc).
    rewrite E' in E. by injection E as <-.
  - congruence.
Qed.
End AppCache.

(** ** The earlier revision: culling and the dictionary of projections *)

Section RootPipeline.
Context `{Math3D} `{PyFloat}.
Context (r : Root.Renderer) (verts : list Vec3).

Let inv (pv : gmap nat Vec3) (acc : list ((nat * nat * nat) * nat))
    : Prop :=
  dict_sound r verts pv ∧ Forall (λ f, face_in_dict r verts pv f.1) acc.

Lemma root_visit_face_culled
    (st : gmap nat Vec3 * list ((nat * nat * nat) * nat))
    (f : (nat * nat * nat) * nat) :
  root_culled r verts f = true → Root.visit_face r verts st f = Some st.
Proof.
  unfold root_culled, Root.visit_face.
  destruct f as [[[i0 i1] i2] ci]. cbn.
  destruct (verts !! i0) as [a|]; [|done].
  destruct (verts !! i1) as [b|]; [|done].
  destruct (verts !! i2) as [c|]; [|done].
  cbn. by intros ->.
Qed.

Lemma root_visit_face_kept
    (st st' : gmap nat Vec3 * list ((nat * nat * nat) * nat))
    (f : (nat * nat * nat) * nat) :
  root_culled r verts f = false →
  Root.visit_face r verts st f = Some st' → st'.2 = st.2 ++ [f].
Proof.
  unfold root_culled, Root.visit_face.
  destruct f as [[[i0 i1] i2] ci]. cbn.
  destruct (verts !! i0) as [a|]; [|done].
  destruct (verts !! i1) as [b|]; [|done].
  destruct (verts !! i2) as [c|]; [|done].
  cbn. intros ->. intros E. by simplify_option_eq.
Qed.

Lemma root_collect_skips_culled (fs : list ((nat * nat * nat) * nat))
    (st0 st : gmap nat Vec3 * list ((nat * nat * nat) * nat)) :
  foldlM (Root.visit_face r verts) fs st0 = Some st →
  foldlM (Root.visit_face r verts)
    (filter (λ f, root_culled r verts f = false) fs) st0 = Some st ∧
  st.2 = st0.2 ++ filter (λ f, root_culled r verts f = false) fs.
Proof.
  revert st0. induction fs as [|f fs IH]; intros st0 E.
  - cbn in E. injection E as <-. by rewrite app_nil_r.
  - rewrite foldlM_cons in E.
    destruct (Root.visit_face r verts st0 f) as [st1|] eqn:E1; [|done].
    cbn in E. destruct (IH _ E) as [IH1 IH2].
    destruct (root_culled r verts f) eqn:Ec.
    + rewrite root_visit_face_culled in E1 by done. injection E1 as <-.
      rewrite filter_cons_False by (by rewrite Ec). done.
    + rewrite filter_cons_True by done.
      rewrite foldlM_cons, E1. cbn. split; [done|].
      rewrite IH2, (root_visit_face_kept _ _ _ Ec E1).
      by rewrite <- app_assoc.
Qed.

Lemma root_project_index_spec (pv : gmap nat Vec3) (i : nat) (v : Vec3) :
  dict_sound r verts pv → verts !! i = Some v →
  ∃ pv', Root.project_index r verts pv i = Some pv' ∧
         dict_sound r verts pv' ∧ vert_in_dict r verts pv' i ∧
         ∀ j, vert_in_dict r verts pv j → vert_in_dict r verts pv' j.
Proof.
  intros Hsound Hv. unfold Root.project_index.
  destruct (pv !! i) as [p|] eqn:Hp.
  - exists pv. repeat split; try done.
    destruct (Hsound i p Hp) as (v' & Hv' & ->).
    exists v. split; [done|]. congruence.
  - rewrite Hv. cbn. eexists. split; [done|]. split; [|split].
    + intros j p Hj. destruct (decide (i = j)) as [->|Hne].
      * rewrite lookup_insert_eq in Hj.
        exists v. split; [done|]. congruence.
      * rewrite lookup_insert_ne in Hj by done. by apply Hsound.
    + exists v. split; [done|]. by rewrite lookup_insert_eq.
    + intros j (w & Hw & Hj). exists w. split; [done|].
      destruct (decide (i = j)) as [->|Hne]; [congruence|].
      by rewrite lookup_insert_ne.
Qed.

Lemma root_project_indices_spec (l : list nat) (pv : gmap nat Vec3) :
  dict_sound r verts pv → Forall (λ i, is_Some (verts !! i)) l →
  ∃ pv', foldlM (Root.project_index r verts) l pv = Some pv' ∧
         dict_sound r verts pv' ∧
         Forall (vert_in_dict r verts pv') l ∧
         ∀ j, vert_in_dict r verts pv j → vert_in_dict r verts pv' j.
Proof.
  revert pv. induction l as [|i l IH]; intros pv Hsound Hl.
  - exists pv. by repeat split.
  - apply Forall_cons in Hl as [[v Hv] Hl].
    destruct (root_project_index_spec pv i v Hsound Hv)
      as (pv1 & E1 & Hsound1 & Hi1 & Hmono1).
    destruct (IH pv1 Hsound1 Hl) as (pv2 & E2 & Hsound2 & Hl2 & Hmono2).
    exists pv2. rewrite foldlM_cons, E1. cbn.
    repeat split; try done.
    + constructor; [by apply Hmono2|done].
    + intros j Hj. by apply Hmono2, Hmono1.
Qed.

Lemma root_visit_face_sim (pv : gmap nat Vec3)
    (acc : list ((nat * nat * nat) * nat)) (f : (nat * nat * nat) * nat) :
  inv pv acc →
  match Root.visit_face_direct r verts acc f with
  | Some acc' =>
      ∃ pv', Root.visit_face r verts (pv, acc) f = Some (pv', acc') ∧
             inv pv' acc'
  | None => Root.visit_face r verts (pv, acc) f = None
  end.
Proof.
  intros (Hsound & Hacc).
  unfold Root.visit_face_direct, Root.visit_face.
  destruct f as [[[i0 i1] i2] ci]. cbn [fst snd].
  destruct (verts !! i0) as [a|] eqn:Ea; cbn [mbind option_bind]; [|done].
  destruct (verts !! i1) as [b|] eqn:Eb; cbn [mbind option_bind]; [|done].
  destruct (verts !! i2) as [c|] eqn:Ec; cbn [mbind option_bind]; [|done].
  destruct (Root.cull_test r (Root.face_dot a b c)).
  { exists pv. by repeat split. }
  destruct (root_project_indices_spec [i0; i1; i2] pv Hsound)
    as (pv' & E & Hsound' & Hl & Hmono).
  { repeat constructor; eauto. }
  rewrite E. cbn. exists pv'. split; [done|]. split; [done|].
  apply Forall_app. split.
  - eapply Forall_impl; [exact Hacc|].
    intros fr (? & ? & ?). unfold face_in_dict. auto.
  - constructor; [|constructor]. unfold face_in_dict. cbn.
    inversion Hl as [|? ? ? Hl1]; subst.
    inversion Hl1 as [|? ? ? Hl2]; subst.
    by inversion Hl2; subst.
Qed.

Lemma root_collect_sim (fs : list ((nat * nat * nat) * nat))
    (pv : gmap nat Vec3) (acc : list ((nat * nat * nat) * nat)) :
  inv pv acc →
  match foldlM (Root.visit_face_direct r verts) fs acc with
  | Some acc' =>
      ∃ pv', foldlM (Root.visit_face r verts) fs (pv, acc)
               = Some (pv', acc') ∧
             inv pv' acc'
  | None => foldlM (Root.visit_face r verts) fs (pv, acc) = None
  end.
Proof.
  revert pv acc. induction fs as [|f fs IH]; intros pv acc Hinv.
  - cbn. by exists pv.
  - rewrite !foldlM_cons.
    pose proof (root_visit_face_sim pv acc f Hinv) as Hs.
    destruct (Root.visit_face_direct r verts acc f) as [acc1|]; cbn.
    + destruct Hs as (pv1 & -> & Hinv1). cbn. by apply IH.
    + by rewrite Hs.
Qed.

Lemma root_face_verts_cached (pv : gmap nat Vec3)
    (idx : nat * nat * nat) :
  face_in_dict r verts pv idx →
  Root.face_verts pv idx = Root.face_verts_direct r verts idx ∧
  is_Some (Root.face_verts pv idx).
Proof.
  unfold face_in_dict, Root.face_verts, Root.face_verts_direct.
  destruct idx as [[i0 i1] i2]. cbn.
  intros ((v0 & Hv0 & Hp0) & (v1 & Hv1 & Hp1) & (v2 & Hv2 & Hp2)).
  rewrite Hv0, Hv1, Hv2, Hp0, Hp1, Hp2. cbn. by split.
Qed.

Lemma root_collect_sound (fs : list ((nat * nat * nat) * nat))
    (st : gmap nat Vec3 * list ((nat * nat * nat) * nat)) :
  Root.collect_faces r verts fs = Some st →
  dict_sound r verts st.1 ∧
  Forall (λ f, face_in_dict r verts st.1 f.1) st.2.
Proof.
  unfold Root.collect_faces. intros E.
  assert (inv ∅ []) as Hinv.
  { split; [|constructor]. intros i p Hi. by rewrite lookup_empty in Hi. }
  pose proof (root_collect_sim fs _ _ Hinv) as Hs.
  destruct (foldlM (Root.visit_face_direct r verts) fs []) as [acc'|].
  - destruct Hs as (pv' & E' & Hsound & Hacc).
    rewrite E' in E. by injection E as <-.
  - congruence.
Qed.

Lemma root_render_scene_direct (WHITE : Z) :
  verts = Root.world_verts (Root.mesh r) →
  Root.render_scene WHITE r = Root.render_scene_direct WHITE r.
Proof.
  intros Hverts. unfold Root.render_scene, Root.render_scene_direct.
  cbn zeta. rewrite <- Hverts. unfold Root.collect_faces.
  assert (inv ∅ []) as Hinv.
  { split; [|constructor]. intros i p Hi. by rewrite lookup_empty in Hi. }
  pose proof (root_collect_sim
    (zip (Root.indices (Root.mesh r)) (Root.colour_indices (Root.mesh r)))
    _ _ Hinv) as Hs.
  destruct (foldlM (Root.visit_face_direct r verts) _ []) as [acc'|]; cbn.
  - destruct Hs as (pv' & -> & _ & Hacc). cbn.
    f_equal. apply Forall_mapM_ext.
    eapply Forall_impl; [exact Hacc|].
    intros f Hf. unfold Root.draw_face, Root.draw_face_direct.
    by destruct (root_face_verts_cached pv' f.1 Hf) as [-> _].
  - by rewrite Hs.
Qed.
End RootPipeline.

(** ** Culling and the cache, for both revisions *)



(** C7.  The cache can be taken away without changing a frame: each entry
    it holds is the projection of its own vertex through the view and
    projection matrices; every face that reaches the drawing loop finds its
    three vertices there, equal to what projecting them again gives; and
    [render_scene] issues the draw calls, or raises, exactly as the pipeline
    that projects the vertices of each face afresh.  This holds for the
    list-based cache of [src/app/__init__.py] and for the dictionary of
    [src/__init__.py]. *)
Theorem projection_cache_transparent :
  (∀ (T : Tidal3D) (r : App.Renderer),
     (∀ (norms verts : list Vec3) (fs : list App.Face)
        (st : list (option Vec3) * list App.FaceRec),
        App.collect_faces r norms verts fs = Some st →
        (∀ (i : nat) (p : Vec3),
           st.1 !! i = Some (Some p) →
           ∃ v, verts !! i = Some v ∧
                p = v_multiply (v_multiply v (App.m_view r))
                      (App.m_proj r)) ∧
        (∀ fr : App.FaceRec,
           fr ∈ App.sort_faces st.2 →
           is_Some (App.face_verts st.1 fr.1) ∧
           App.face_verts st.1 fr.1
             = App.face_verts_direct r verts fr.1)) ∧
     App.render_scene r = App.render_scene_direct r) ∧
  (∀ (M : Math3D) (F : PyFloat) (WHITE : Z) (r : Root.Renderer),
     (∀ (verts : list Vec3) (fs : list ((nat * nat * nat) * nat))
        (st : gmap nat Vec3 * list ((nat * nat * nat) * nat)),
        Root.collect_faces r verts fs = Some st →
        (∀ (i : nat) (p : Vec3),
           st.1 !! i = Some p →
           ∃ v, verts !! i = Some v ∧
                p = vec_multiply (vec_multiply v (Root.m_view r))
                      (Root.m_proj r)) ∧
        (∀ f : (nat * nat * nat) * nat,
           f ∈ st.2 →
           is_Some (Root.face_verts st.1 f.1) ∧
           Root.face_verts st.1 f.1
             = Root.face_verts_direct r verts f.1)) ∧
     Root.render_scene WHITE r = Root.render_scene_direct WHITE r).
Proof.
  split.
  - intros T r. split.
    + intros norms verts fs st E.
      destruct (collect_sound r norms verts fs st E) as [Hsound Hacc].
      split; [exact Hsound|].
      intros fr Hfr. rewrite (py_sort_perm App.depth st.2) in Hfr.
      rewrite Forall_forall in Hacc.
      destruct (face_verts_cached r verts st.1 fr.1 (Hacc fr Hfr)).
      by split.
    + unfold App.render_scene, App.render_scene_direct. cbn zeta.
      set (norms := App.world_norms (App.mesh r)).
      set (verts := App.world_verts (App.mesh r)).
      unfold App.collect_faces.
      assert (length (replicate (length verts) (@None Vec3)) = length verts ∧
              cache_sound r verts (replicate (length verts) None) ∧
              Forall (λ fr : App.FaceRec,
                        face_cached r verts (replicate (length verts) None)
                          fr.1) []) as Hinv.
      { split; [by rewrite length_replicate|].
        split; [apply cache_sound_init|constructor]. }
      pose proof (collect_sim r norms verts (App.faces (App.mesh r)) _ _
                    Hinv) as Hs.
      destruct (foldlM (App.visit_face_direct r norms verts) _ [])
        as [acc'|]; cbn.
      * destruct Hs as (pv' & -> & _ & _ & Hacc). cbn.
        unfold App.draw_faces. f_equal. apply Forall_mapM_ext.
        rewrite (py_sort_perm App.depth acc').
        eapply Forall_impl; [exact Hacc|].
        intros fr Hfr. unfold App.draw_face, App.draw_face_direct.
        by destruct (face_verts_cached r verts pv' fr.1 Hfr) as [-> _].
      * by rewrite Hs.
  - intros M F WHITE r. split.
    + intros verts fs st E.
      destruct (root_collect_sound r verts fs st E) as [Hsound Hacc].
      split; [exact Hsound|].
      intros f Hf. rewrite Forall_forall in Hacc.
      destruct (root_face_verts_cached r verts st.1 f.1 (Hacc f Hf)).
      by split.
    + exact (root_render_scene_direct r (Root.world_verts (Root.mesh r))
               WHITE eq_refl).
Qed.

Lemma projection_cache_transparent_witness :
  (∀ (i : nat) (p : Vec3),
     [Some (mkVec3 (-301864579776512 # 586412928252795)
                   (-56599608708096 # 195470976084265) (6980 # 6993));
      Some (mkVec3 (301864579776512 # 586412928252795)
                   (-56599608708096 # 195470976084265) (6980 # 6993));
      Some (mkVec3 0 (56599608708096 # 195470976084265) (6980 # 6993))]
       !! i = Some (Some p) →
     ∃ v, @App.world_verts Examples.tidal3d Examples.two_sided !! i
            = Some v ∧
          p = Examples.q_multiply
                (Examples.q_multiply v (App.m_view Examples.app0))
                (App.m_proj Examples.app0)) ∧
  @App.render_scene Examples.tidal3d Examples.app0
    = @App.render_scene_direct Examples.tidal3d Examples.app0 ∧
  @Root.render_scene Examples.math3d binary64 65535 Examples.root0
    = @Root.render_scene_direct Examples.math3d binary64 65535
        Examples.root0.
Proof.
  destruct projection_cache_transparent as [HA HR].
  destruct (HA Examples.tidal3d Examples.app0) as [H E].
  destruct (HR Examples.math3d binary64 65535%Z Examples.root0)
    as [_ ER].
  split; [|by split].
  destruct (H (@App.world_norms Examples.tidal3d Examples.two_sided)
              (@App.world_verts Examples.tidal3d Examples.two_sided)
              (App.faces Examples.two_sided)
              ([Some (mkVec3 (-301864579776512 # 586412928252795)
                             (-56599608708096 # 195470976084265)
                             (6980 # 6993));
                Some (mkVec3 (301864579776512 # 586412928252795)
                             (-56599608708096 # 195470976084265)
                             (6980 # 6993));
                Some (mkVec3 0 (56599608708096 # 195470976084265)
                             (6980 # 6993))],
               [(App.mkFace (0, 1, 2)%nat 0 0, (-35)%Q)]))
    as [Hs _].
  - vm_compute. reflexivity.
  - exact Hs.
Defined.

(** * Further properties of the code *)

(** ** Which faces are collected and drawn *)

Lemma filter_all {A} (P : A → Prop) `{∀ x, Decision (P x)} (l : list A) :
  Forall P l → filter P l = l.
Proof.
  induction 1 as [|x l Hx Hl IH]; [done|].
  by rewrite filter_cons_True, IH.
Qed.

(** X3.  In point-cloud and full-wireframe mode nothing is culled: every
    face of the mesh is collected, in mesh order, whatever way it faces. *)
Theorem no_culling_below_mode_2 (T : Tidal3D) (r : App.Renderer)
    (norms verts : list Vec3) (fs : list App.Face)
    (st : list (option Vec3) * list App.FaceRec) :
  (App.render_mode r < App.MODE_WIREFRAME_BACK_FACE_CULLING)%Z →
  App.collect_faces r norms verts fs = Some st →
  st.2.*1 = fs.
Proof.
  intros Hm E. unfold App.collect_faces in E.
  apply collect_skips_culled in E as [_ ->]. cbn.
  apply filter_all, Forall_forall. intros f _.
  unfold app_culled, App.cull_test.
  destruct (_ ≫= _) as [dot|]; [|done].
  apply andb_false_iff. right. by apply Z.leb_gt.
Qed.

Lemma no_culling_below_mode_2_witness :
  (default ([], [])
     (@App.collect_faces Examples.tidal3d
        (App.set_render_mode Examples.app0 1)
        (@App.world_norms Examples.tidal3d Examples.two_sided)
        (@App.world_verts Examples.tidal3d Examples.two_sided)
        (App.faces Examples.two_sided))).2.*1
  = App.faces Examples.two_sided.
Proof.
  apply (no_culling_below_mode_2 Examples.tidal3d
           (App.set_render_mode Examples.app0 1)
           (@App.world_norms Examples.tidal3d Examples.two_sided)
           (@App.world_verts Examples.tidal3d Examples.two_sided)).
  - vm_compute. reflexivity.
  - vm_compute. reflexivity.
Defined.

(** ** Index errors *)

Lemma foldlM_None_at {A S} (body : S → A → option S) (l : list A) (x : A)
    (s : S) :
  x ∈ l → (∀ s', body s' x = None) → foldlM body l s = None.
Proof.
  intros Hx Hbody. revert s.
  induction l as [|y l IH]; intros s; [by apply elem_of_nil in Hx|].
  rewrite foldlM_cons. apply elem_of_cons in Hx as [<-|Hx].
  - by rewrite Hbody.
  - destruct (body s y) as [s'|]; [|done]. cbn. by apply IH.
Qed.

Section AppIndices.
Context `{Tidal3D}.
Context (r : App.Renderer) (norms verts : list Vec3).

Lemma face_centre_in_range (f : App.Face) :
  face_in_range r norms verts f → is_Some (App.face_centre verts f).
Proof.
  intros (H0 & H1 & H2 & _). unfold App.face_centre.
  destruct (App.indices f) as [[i0 i1] i2]. cbn in *.
  destruct (lookup_lt_is_Some_2 verts i0 H0) as [a ->].
  destruct (lookup_lt_is_Some_2 verts i1 H1) as [b ->].
  destruct (lookup_lt_is_Some_2 verts i2 H2) as [c ->].
  by eexists.
Qed.

Lemma face_centre_out_of_range (f : App.Face) :
  (length verts ≤ (App.indices f).1.1 ∨
   length verts ≤ (App.indices f).1.2 ∨
   length verts ≤ (App.indices f).2)%nat →
  App.face_centre verts f = None.
Proof.
  unfold App.face_centre. destruct (App.indices f) as [[i0 i1] i2]. cbn.
  intros [Hi|[Hi|Hi]]; apply lookup_ge_None_2 in Hi; rewrite Hi;
    by repeat (destruct (verts !! _); cbn).
Qed.

Lemma visit_face_direct_in_range (acc : list App.FaceRec) (f : App.Face) :
  face_in_range r norms verts f →
  is_Some (App.visit_face_direct r norms verts acc f).
Proof.
  intros Hf. unfold App.visit_face_direct, App.face_dot.
  destruct (face_centre_in_range f Hf) as [centre ->]. cbn.
  destruct Hf as (_ & _ & _ & Hn & _).
  destruct (lookup_lt_is_Some_2 norms _ Hn) as [n ->]. cbn.
  by destruct (App.cull_test r _).
Qed.

Lemma collect_direct_in_range (fs : list App.Face)
    (acc : list App.FaceRec) :
  Forall (face_in_range r norms verts) fs →
  is_Some (foldlM (App.visit_face_direct r norms verts) fs acc).
Proof.
  intros Hfs. revert acc.
  induction Hfs as [|f fs Hf _ IH]; intros acc; [by eexists|].
  rewrite foldlM_cons.
  destruct (visit_face_direct_in_range acc f Hf) as [acc1 ->]. cbn.
  apply IH.
Qed.

Lemma face_colour_in_range (f : App.Face) :
  face_in_range r norms verts f → is_Some (App.face_colour r norms f).
Proof.
  intros (_ & _ & _ & Hn & Hc).
  unfold App.face_colour, App.flat_colour, App.shaded_colour,
    App.MODE_SOLID_SHADED in *.
  destruct (lookup_lt_is_Some_2 norms _ Hn) as [n En].
  destruct (Z.ltb_spec App.MODE_POINT_CLOUD (App.render_mode r))
    as [Hm|Hm]; cbn [andb].
  - destruct (lookup_lt_is_Some_2 _ _ (Hc Hm)) as [c Ec].
    rewrite En, Ec. cbn. by repeat case_match.
  - unfold App.MODE_POINT_CLOUD in Hm.
    destruct (Z.leb_spec 4 (App.render_mode r)); [lia|]. by eexists.
Qed.

Lemma draw_with_in_range (f : App.Face) (fv : list Vec3) :
  face_in_range r norms verts f → is_Some (App.draw_with r norms f fv).
Proof.
  intros Hf. unfold App.draw_with.
  destruct (face_visible fv); cbn; [|by eexists].
  destruct (face_colour_in_range f Hf) as [colour ->]. by eexists.
Qed.
End AppIndices.

(** X4.  On a mesh whose face indices are all in range (vertex indices
    within the world vertices, normal index within the world normals, and
    colour index within the palette unless the mode is point cloud, which
    reads no colour) [render_scene] raises nothing and returns its draw
    calls. *)
Theorem render_scene_in_range (T : Tidal3D) (r : App.Renderer) :
  Forall
    (face_in_range r (App.world_norms (App.mesh r))
       (App.world_verts (App.mesh r)))
    (App.faces (App.mesh r)) →
  is_Some (App.render_scene r).
Proof.
  intros Hfs. unfold App.render_scene. cbn zeta.
  set (norms := App.world_norms (App.mesh r)) in *.
  set (verts := App.world_verts (App.mesh r)) in *.
  destruct (App.collect_faces r norms verts (App.faces (App.mesh r)))
    as [st|] eqn:E.
  - cbn. destruct (collect_sound r norms verts _ _ E) as [_ Hacc].
    unfold App.collect_faces in E.
    apply collect_skips_culled in E as [_ Hst]. cbn in Hst.
    unfold App.draw_faces. apply fmap_is_Some, mapM_is_Some_2.
    rewrite (py_sort_perm App.depth st.2).
    apply Forall_forall. intros fr Hfr. cbn.
    rewrite Forall_forall in Hacc. rewrite Forall_forall in Hfs.
    unfold App.draw_face.
    destruct (face_verts_cached r verts st.1 fr.1 (Hacc fr Hfr))
      as [_ [fv ->]].
    cbn. apply (draw_with_in_range r norms verts). apply Hfs.
    assert (fr.1 ∈ st.2.*1) as Hin by (by apply list_elem_of_fmap_2).
    rewrite Hst in Hin. by apply list_elem_of_filter in Hin as [_ ?].
  - exfalso. unfold App.collect_faces in E.
    pose proof (collect_direct_in_range r norms verts _ [] Hfs)
      as [acc Hdirect].
    pose proof (collect_sim r norms verts (App.faces (App.mesh r))
                  (replicate (length verts) None) []) as Hs.
    rewrite Hdirect in Hs. destruct Hs as (pv & Hs & _).
    + split; [by rewrite length_replicate|].
      split; [apply cache_sound_init|constructor].
    + congruence.
Qed.

Lemma render_scene_in_range_witness :
  is_Some (@App.render_scene Examples.tidal3d Examples.app0).
Proof.
  apply render_scene_in_range.
  repeat constructor; vm_compute; try lia; discriminate.
Defined.

(** X5.  A face with a vertex index or a normal index out of range makes
    the whole frame fail, in every render mode and whether or not the face
    would have been culled or visible. *)
Theorem render_scene_index_error (T : Tidal3D) (r : App.Renderer)
    (f : App.Face) :
  f ∈ App.faces (App.mesh r) →
  (length (App.world_verts (App.mesh r)) ≤ (App.indices f).1.1 ∨
   length (App.world_verts (App.mesh r)) ≤ (App.indices f).1.2 ∨
   length (App.world_verts (App.mesh r)) ≤ (App.indices f).2 ∨
   length (App.world_norms (App.mesh r)) ≤ App.norm_index f)%nat →
  App.render_scene r = None.
Proof.
  intros Hf Hbad. unfold App.render_scene, App.collect_faces. cbn zeta.
  rewrite (foldlM_None_at _ _ f); [done|done|].
  intros st. unfold App.visit_face.
  destruct (App.face_centre _ f) as [centre|] eqn:Ec; [|done]. cbn.
  destruct Hbad as [Hi|[Hi|[Hi|Hn]]].
  1-3: rewrite face_centre_out_of_range in Ec by auto; done.
  unfold App.face_dot. by rewrite (lookup_ge_None_2 _ _ Hn).
Qed.

Lemma render_scene_index_error_witness :
  @App.render_scene Examples.tidal3d
    (App.set_mesh Examples.app0 "cube.obj"
       (App.mkMesh (App.vertices Examples.two_sided)
          (App.normals Examples.two_sided)
          [App.mkFace (0, 1, 3)%nat 0 0] (App.colours Examples.two_sided)
          [0; 0; 0]%Q [0; 0; 0]%Q [0; 0; 0]%Q))
  = None.
Proof.
  apply (render_scene_index_error Examples.tidal3d _
           (App.mkFace (0, 1, 3)%nat 0 0)).
  - cbn. apply list_elem_of_here.
  - right. right. left. vm_compute. lia.
Defined.

(** ** The draw calls of a frame *)

Section AppCalls.
Context `{Tidal3D}.
Context (r : App.Renderer) (norms : list Vec3).

Lemma dispatch_fits (coords : list Z) (colour : Z) :
  (App.render_mode r = App.MODE_POINT_CLOUD → colour = WHITE) →
  length (App.dispatch r coords colour) ≤ 1 ∧
  Forall (call_fits_mode (App.render_mode r)) (App.dispatch r coords colour).
Proof.
  intros Hw. unfold App.dispatch.
  destruct (Z.eqb_spec (App.render_mode r) App.MODE_POINT_CLOUD) as [E|_].
  { split; [done|]. constructor; [|constructor]. split; auto. }
  destruct (Z.eqb_spec (App.render_mode r) App.MODE_WIREFRAME_FULL)
    as [E|_]; cbn [orb].
  { split; [done|]. constructor; [|constructor]. by left. }
  destruct (Z.eqb_spec (App.render_mode r)
              App.MODE_WIREFRAME_BACK_FACE_CULLING) as [E|_].
  { split; [done|]. constructor; [|constructor]. by right. }
  destruct (Z.leb_spec App.MODE_SOLID (App.render_mode r)).
  - split; [done|]. constructor; [|constructor]. done.
  - split; [cbn; lia|constructor].
Qed.

Lemma face_colour_point_cloud (f : App.Face) (colour : Z) :
  App.render_mode r = App.MODE_POINT_CLOUD →
  App.face_colour r norms f = Some colour → colour = WHITE.
Proof.
  unfold App.face_colour. intros ->. cbn. congruence.
Qed.

Lemma draw_with_fits (f : App.Face) (fv : list Vec3)
    (cs : list DrawCall) :
  App.draw_with r norms f fv = Some cs →
  length cs ≤ 1 ∧ Forall (call_fits_mode (App.render_mode r)) cs.
Proof.
  unfold App.draw_with. destruct (face_visible fv); cbn.
  - destruct (App.face_colour r norms f) as [colour|] eqn:Ec; [|done].
    cbn. intros [= <-]. apply dispatch_fits.
    intros Hm. by eapply face_colour_point_cloud.
  - intros [= <-]. split; [cbn; lia|constructor].
Qed.

Lemma draw_faces_fits (pv : list (option Vec3)) (fs : list App.FaceRec)
    (calls : list DrawCall) :
  App.draw_faces r norms pv fs = Some calls →
  length calls ≤ length fs ∧
  Forall (call_fits_mode (App.render_mode r)) calls.
Proof.
  unfold App.draw_faces. intros E.
  apply mapM_concat_inv in E as (per_face & HF & ->).
  induction HF as [|fr cs fs per_face Hfr _ IH]; [by split|].
  unfold App.draw_face in Hfr.
  destruct (App.face_verts pv fr.1) as [fv|]; [|done]. cbn in Hfr.
  apply draw_with_fits in Hfr as [Hlen Hfit]. destruct IH as [IHlen IHfit].
  cbn. rewrite length_app. split; [lia|]. by apply Forall_app.
Qed.
End AppCalls.

(** X6.  A frame never draws a face twice: [render_scene] issues at most
    as many draw calls as the mesh has faces. *)
Theorem render_scene_call_count (T : Tidal3D) (r : App.Renderer)
    (calls : list DrawCall) :
  App.render_scene r = Some calls →
  length calls ≤ length (App.faces (App.mesh r)).
Proof.
  unfold App.render_scene. cbn zeta. intros E.
  destruct (App.collect_faces _ _ _ _) as [st|] eqn:EC; [|done].
  cbn in E. apply draw_faces_fits in E as [Hlen _].
  rewrite (py_sort_perm App.depth st.2) in Hlen.
  unfold App.collect_faces in EC.
  apply collect_skips_culled in EC as [_ Hst]. cbn in Hst.
  apply (f_equal length) in Hst. rewrite length_fmap in Hst.
  unfold App.FaceRec in *. rewrite Hst in Hlen.
  etrans; [exact Hlen|]. apply length_filter.
Qed.

Lemma render_scene_call_count_witness :
  length [DrawPolygon [32; 154; 102; 154; 67; 85]%Z 20545 true]
    ≤ length (App.faces (App.mesh Examples.app0)).
Proof.
  apply (render_scene_call_count Examples.tidal3d). vm_compute. reflexivity.
Defined.

(** X7.  Every draw call of a frame is the primitive of the current render
    mode: white points in point-cloud mode, outlines in the two wireframe
    modes, filled polygons from [MODE_SOLID] upwards. *)
Theorem render_scene_primitives (T : Tidal3D) (r : App.Renderer)
    (calls : list DrawCall) :
  App.render_scene r = Some calls →
  Forall (call_fits_mode (App.render_mode r)) calls.
Proof.
  unfold App.render_scene. cbn zeta. intros E.
  destruct (App.collect_faces _ _ _ _) as [st|]; [|done].
  cbn in E. by apply draw_faces_fits in E as [_ ?].
Qed.

Lemma render_scene_primitives_witness :
  Forall (@call_fits_mode Examples.tidal3d 0)
    [DrawPoints [40; 147; 94; 147; 67; 92]%Z 65535;
     DrawPoints [32; 154; 102; 154; 67; 85]%Z 65535].
Proof.
  apply (render_scene_primitives Examples.tidal3d
           (App.set_render_mode Examples.app_two_depths 0)).
  vm_compute. reflexivity.
Defined.

(** ** What the cache holds *)

Section AppCacheExact.
Context `{Tidal3D}.
Context (r : App.Renderer) (norms verts : list Vec3).

Lemma project_index_fills (pv pv' : list (option Vec3)) (i j : nat)
    (p : Vec3) :
  App.project_index r verts pv i = Some pv' →
  pv' !! j = Some (Some p) → pv !! j = Some (Some p) ∨ j = i.
Proof.
  unfold App.project_index. intros E Hj.
  destruct (pv !! i) as [[q|]|] eqn:Ei; cbn in E; [| |done].
  - injection E as <-. by left.
  - destruct (verts !! i) as [v|]; [|done]. cbn in E.
    apply py_setitem_inv in E as [_ ->].
    destruct (decide (i = j)) as [->|Hne]; [by right|].
    rewrite list_lookup_insert_ne in Hj by done. by left.
Qed.

Lemma project_indices_fills (l : list nat) (pv pv' : list (option Vec3))
    (j : nat) (p : Vec3) :
  foldlM (App.project_index r verts) l pv = Some pv' →
  pv' !! j = Some (Some p) → pv !! j = Some (Some p) ∨ j ∈ l.
Proof.
  revert pv. induction l as [|i l IH]; intros pv E Hj.
  - cbn in E. injection E as <-. by left.
  - rewrite foldlM_cons in E.
    destruct (App.project_index r verts pv i) as [pv1|] eqn:E1; [|done].
    cbn in E. destruct (IH pv1 E Hj) as [H1|Hin].
    + destruct (project_index_fills _ _ _ _ _ E1 H1) as [?| ->];
        [by left|right; apply list_elem_of_here].
    + right. by apply list_elem_of_further.
Qed.

Lemma collect_fills (fs : list App.Face)
    (st0 st : list (option Vec3) * list App.FaceRec) :
  foldlM (App.visit_face r norms verts) fs st0 = Some st →
  (∀ j p, st0.1 !! j = Some (Some p) →
          ∃ fr, fr ∈ st0.2 ∧ vertex_of fr.1 j) →
  ∀ j p, st.1 !! j = Some (Some p) → ∃ fr, fr ∈ st.2 ∧ vertex_of fr.1 j.
Proof.
  revert st0. induction fs as [|f fs IH]; intros st0 E H0.
  - cbn in E. by injection E as <-.
  - rewrite foldlM_cons in E.
    destruct (App.visit_face r norms verts st0 f) as [st1|] eqn:E1; [|done].
    cbn in E. apply (IH st1 E). clear IH E.
    unfold App.visit_face in E1.
    destruct (App.face_centre verts f) as [centre|]; [|done]. cbn in E1.
    destruct (App.face_dot r norms centre f) as [dot|]; [|done].
    cbn in E1. destruct (App.cull_test r dot); [by injection E1 as <-|].
    destruct (App.indices f) as [[i0 i1] i2] eqn:Ei.
    apply bind_Some in E1 as (pv & Epv & E1). injection E1 as <-.
    cbn [fst snd]. intros j p Hj.
    destruct (project_indices_fills [i0; i1; i2] _ _ _ _ Epv Hj)
      as [Hold|Hnew].
    + destruct (H0 j p Hold) as (fr & Hfr & Hv).
      exists fr. split; [|done]. apply elem_of_app. by left.
    + eexists. split; [apply elem_of_app; right;
                       apply list_elem_of_here|].
      unfold vertex_of. cbn. rewrite Ei. cbn.
      apply elem_of_cons in Hnew as [->|Hnew]; [by left|].
      apply elem_of_cons in Hnew as [->|Hnew]; [by right; left|].
      apply elem_of_cons in Hnew as [->|Hnew]; [by right; right|].
      by apply elem_of_nil in Hnew.
Qed.
End AppCacheExact.

(** X8.  Only the vertices of faces that survive culling are projected:
    an entry of the cache is filled exactly when its index is a vertex of
    a collected face. *)
Theorem cache_holds_surviving_vertices (T : Tidal3D) (r : App.Renderer)
    (norms verts : list Vec3) (fs : list App.Face)
    (st : list (option Vec3) * list App.FaceRec) (i : nat) :
  App.collect_faces r norms verts fs = Some st →
  is_Some (App.cached_vert st.1 i) ↔ ∃ fr, fr ∈ st.2 ∧ vertex_of fr.1 i.
Proof.
  intros E. split.
  - intros [p Hp]. unfold App.cached_vert in Hp.
    destruct (st.1 !! i) as [[q|]|] eqn:Hi; try done.
    unfold App.collect_faces in E.
    apply (collect_fills r norms verts fs _ _ E) with (p := q); [|done].
    cbn. intros j p' Hj. by apply lookup_replicate in Hj as [? _].
  - intros (fr & Hfr & Hv).
    destruct (collect_sound r norms verts fs st E) as [_ Hacc].
    rewrite Forall_forall in Hacc.
    destruct (Hacc fr Hfr) as ((v0 & _ & H0) & (v1 & _ & H1) & (v2 & _ & H2)).
    unfold App.cached_vert.
    destruct Hv as [->|[->| ->]]; [rewrite H0|rewrite H1|rewrite H2];
      by eexists.
Qed.

Lemma cache_holds_surviving_vertices_witness :
  is_Some
    (App.cached_vert
       (default ([], [])
          (@App.collect_faces Examples.tidal3d Examples.app0
             (@App.world_norms Examples.tidal3d Examples.two_sided)
             (@App.world_verts Examples.tidal3d Examples.two_sided)
             (App.faces Examples.two_sided))).1 2)
  ↔ ∃ fr,
      fr ∈ (default ([], [])
              (@App.collect_faces Examples.tidal3d Examples.app0
                 (@App.world_norms Examples.tidal3d Examples.two_sided)
                 (@App.world_verts Examples.tidal3d Examples.two_sided)
                 (App.faces Examples.two_sided))).2 ∧
      vertex_of fr.1 2.
Proof.
  apply (cache_holds_surviving_vertices Examples.tidal3d Examples.app0
           (@App.world_norms Examples.tidal3d Examples.two_sided)
           (@App.world_verts Examples.tidal3d Examples.two_sided)
           (App.faces Examples.two_sided)).
  vm_compute. reflexivity.
Defined.

(** ** The controls *)

(** X9.  From any defined render mode, as many presses of the mode button
    as there are modes bring the renderer back to the very state it was
    in: five in [src/app/__init__.py], four in [src/__init__.py]. *)
Theorem select_mode_period :
  (∀ r : App.Renderer,
     (0 ≤ App.render_mode r ≤ App.MODE_SOLID_SHADED)%Z →
     Nat.iter 5 App.select_mode r = r) ∧
  (∀ r : Root.Renderer,
     (0 ≤ Root.render_mode r ≤ Root.MODE_SOLID)%Z →
     Nat.iter 4 Root.select_mode r = r).
Proof.
  split.
  - intros [w h m o mp mv cp lt me]. cbn. unfold App.MODE_SOLID_SHADED.
    intros Hm.
    assert (m = 0 ∨ m = 1 ∨ m = 2 ∨ m = 3 ∨ m = 4)%Z
      as [->|[->|[->|[->| ->]]]] by lia; reflexivity.
  - intros [w h m mp mv me]. cbn. unfold Root.MODE_SOLID. intros Hm.
    assert (m = 0 ∨ m = 1 ∨ m = 2 ∨ m = 3)%Z
      as [->|[->|[->| ->]]] by lia; reflexivity.
Qed.

Lemma select_mode_period_witness :
  Nat.iter 5 App.select_mode Examples.app0 = Examples.app0 ∧
  Nat.iter 4 Root.select_mode Examples.root0 = Examples.root0.
Proof.
  destruct select_mode_period as [HA HR]. split.
  - apply HA. vm_compute. split; discriminate.
  - apply HR. vm_compute. split; discriminate.
Defined.

(** X10.  Outside the defined modes the two revisions differ:
    [src/app/__init__.py] sends every mode from 4 upwards to 0 and every
    smaller one, negative ones included, to its successor, so that it
    always ends up among the defined modes; [src/__init__.py] has no
    branch for an undefined mode and leaves the renderer as it is. *)
Theorem select_mode_undefined :
  (∀ r : App.Renderer,
     (App.MODE_SOLID_SHADED ≤ App.render_mode r)%Z →
     App.render_mode (App.select_mode r) = App.MODE_POINT_CLOUD) ∧
  (∀ r : App.Renderer,
     (App.render_mode r < App.MODE_SOLID_SHADED)%Z →
     App.render_mode (App.select_mode r) = (App.render_mode r + 1)%Z) ∧
  (∀ r : Root.Renderer,
     (Root.render_mode r < 0 ∨ Root.MODE_SOLID < Root.render_mode r)%Z →
     Root.select_mode r = r).
Proof.
  unfold App.MODE_SOLID_SHADED, App.MODE_POINT_CLOUD, Root.MODE_SOLID.
  split; [|split].
  - intros r Hm. rewrite app_select_mode_mode.
    destruct (Z.ltb_spec 4 (App.render_mode r + 1)); [done|lia].
  - intros r Hm. rewrite app_select_mode_mode.
    destruct (Z.ltb_spec 4 (App.render_mode r + 1)); [lia|done].
  - intros r Hm. unfold Root.select_mode, Root.MODE_POINT_CLOUD,
      Root.MODE_WIREFRAME_FULL, Root.MODE_WIREFRAME_BACK_FACE_CULLING,
      Root.MODE_SOLID.
    destruct (Z.eqb_spec (Root.render_mode r) 0); [lia|].
    destruct (Z.eqb_spec (Root.render_mode r) 1); [lia|].
    destruct (Z.eqb_spec (Root.render_mode r) 2); [lia|].
    destruct (Z.eqb_spec (Root.render_mode r) 3); [lia|done].
Qed.

Lemma select_mode_undefined_witness :
  App.render_mode (App.select_mode (App.set_render_mode Examples.app0 7))
    = App.MODE_POINT_CLOUD ∧
  App.render_mode
    (App.select_mode (App.set_render_mode Examples.app0 (-2)))
    = (-2 + 1)%Z ∧
  Root.select_mode (Root.set_render_mode Examples.root0 7)
    = Root.set_render_mode Examples.root0 7.
Proof.
  destruct select_mode_undefined as (H1 & H2 & H3).
  split; [apply H1; vm_compute; discriminate|].
  split; [apply H2; vm_compute; reflexivity|].
  apply H3. right. vm_compute. reflexivity.
Defined.

(** X11.  The object button alternates between the two models: from
    either of them one press selects the other and two presses select the
    first again; any other name is kept.  Each press reloads the mesh of
    the name it ends on and leaves the render mode, the matrices, the
    camera and the light alone. *)
Theorem select_object_alternates (load : string → App.Mesh)
    (r : App.Renderer) :
  (App.render_object r = "cube.obj" →
   App.render_object (App.select_object load r) = "teapot.obj") ∧
  (App.render_object r = "teapot.obj" →
   App.render_object (App.select_object load r) = "cube.obj") ∧
  (App.render_object r = "cube.obj" ∨ App.render_object r = "teapot.obj" →
   App.render_object (App.select_object load (App.select_object load r))
     = App.render_object r) ∧
  (App.render_object r ≠ "cube.obj" → App.render_object r ≠ "teapot.obj" →
   App.render_object (App.select_object load r) = App.render_object r) ∧
  App.mesh (App.select_object load r)
    = load (App.render_object (App.select_object load r)) ∧
  App.render_mode (App.select_object load r) = App.render_mode r ∧
  App.m_proj (App.select_object load r) = App.m_proj r ∧
  App.m_view (App.select_object load r) = App.m_view r ∧
  App.v_campos (App.select_object load r) = App.v_campos r ∧
  App.v_light (App.select_object load r) = App.v_light r.
Proof.
  assert (App.render_object r = "cube.obj" →
          App.render_object (App.select_object load r) = "teapot.obj")
    as Hc.
  { intros E. unfold App.select_object. rewrite E. reflexivity. }
  assert (App.render_object r = "teapot.obj" →
          App.render_object (App.select_object load r) = "cube.obj")
    as Ht.
  { intros E. unfold App.select_object. rewrite E. reflexivity. }
  split; [exact Hc|]. split; [exact Ht|]. split; [|split].
  - intros [E|E].
    + rewrite E. unfold App.select_object at 1.
      rewrite (Hc E). reflexivity.
    + rewrite E. unfold App.select_object at 1.
      rewrite (Ht E). reflexivity.
  - intros Hnc Hnt. unfold App.select_object. cbn.
    apply String.eqb_neq in Hnc, Hnt. by rewrite Hnc, Hnt.
  - by repeat split.
Qed.

Lemma select_object_alternates_witness :
  App.render_object (App.select_object Examples.app_load Examples.app0)
    = "teapot.obj" ∧
  App.render_object
    (App.select_object Examples.app_load
       (App.select_object Examples.app_load Examples.app0))
    = App.render_object Examples.app0.
Proof.
  destruct (select_object_alternates Examples.app_load Examples.app0)
    as (H1 & _ & H3 & _).
  split; [apply H1; vm_compute; reflexivity|].
  apply H3. left. vm_compute. reflexivity.
Defined.

Lemma app_update_inv (held : Pin → bool) (delta_t : Q)
    (r r' : App.Renderer) :
  App.update held delta_t r = Some r' →
  ∃ a1 a2,
    (if negb (held JOY_LEFT) && negb (held JOY_RIGHT)
     then py_setitem (App.angular (App.mesh r)) 1 0%Q
     else Some (App.angular (App.mesh r))) = Some a1 ∧
    (if negb (held JOY_UP) && negb (held JOY_DOWN)
     then py_setitem a1 0 0%Q else Some a1) = Some a2 ∧
    App.angular (App.mesh r') = a2.
Proof.
  unfold App.update. intros E.
  apply bind_Some in E as (m1 & E1 & E).
  apply bind_Some in E as (m2 & E2 & E).
  apply bind_Some in E as (m3 & E3 & E). injection E as <-.
  apply app_mesh_update_angular in E3. cbn. rewrite E3.
  exists (App.angular m1), (App.angular m2).
  destruct (negb (held JOY_LEFT) && negb (held JOY_RIGHT)).
  - apply fmap_Some in E1 as (a1 & Ea1 & ->). cbn in *.
    split; [done|]. split; [|done].
    destruct (negb (held JOY_UP) && negb (held JOY_DOWN)).
    + apply fmap_Some in E2 as (a2 & Ea2 & ->). by cbn in *.
    + by injection E2 as <-.
  - injection E1 as <-. split; [done|]. split; [|done].
    destruct (negb (held JOY_UP) && negb (held JOY_DOWN)).
    + apply fmap_Some in E2 as (a2 & Ea2 & ->). by cbn in *.
    + by injection E2 as <-.
Qed.

(** X12.  Hold to rotate: while the rotate-left or the rotate-right
    control is held, [update] keeps the Y component of the angular
    velocity as it finds it, so that the 45 stored by [button_left] stays
    until the control is released; and the up and down handlers never
    touch the Y component, nor the left and right handlers the X
    component. *)
Theorem hold_to_rotate :
  (∀ (held : Pin → bool) (delta_t : Q) (r r' : App.Renderer),
     held JOY_LEFT = true ∨ held JOY_RIGHT = true →
     App.update held delta_t r = Some r' →
     App.angular (App.mesh r') !! 1%nat
       = App.angular (App.mesh r) !! 1%nat) ∧
  (∀ (held : Pin → bool) (delta_t : Q) (r r1 r2 : App.Renderer),
     App.button_left r = Some r1 → held JOY_LEFT = true →
     App.update held delta_t r1 = Some r2 →
     App.angular (App.mesh r2) !! 1%nat = Some 45%Q) ∧
  (∀ r r' : App.Renderer,
     App.button_up r = Some r' ∨ App.button_down r = Some r' →
     App.angular (App.mesh r') !! 1%nat
       = App.angular (App.mesh r) !! 1%nat) ∧
  (∀ r r' : App.Renderer,
     App.button_left r = Some r' ∨ App.button_right r = Some r' →
     App.angular (App.mesh r') !! 0%nat
       = App.angular (App.mesh r) !! 0%nat).
Proof.
  assert (∀ (held : Pin → bool) (delta_t : Q) (r r' : App.Renderer),
     held JOY_LEFT = true ∨ held JOY_RIGHT = true →
     App.update held delta_t r = Some r' →
     App.angular (App.mesh r') !! 1%nat
       = App.angular (App.mesh r) !! 1%nat) as Hhold.
  { intros held delta_t r r' Hh E.
    apply app_update_inv in E as (a1 & a2 & E1 & E2 & ->).
    assert (negb (held JOY_LEFT) && negb (held JOY_RIGHT) = false) as Hb.
    { destruct Hh as [-> | ->]; [done|]. by destruct (held JOY_LEFT). }
    rewrite Hb in E1. injection E1 as <-.
    destruct (negb (held JOY_UP) && negb (held JOY_DOWN)).
    - apply py_setitem_inv in E2 as [_ ->].
      by rewrite list_lookup_insert_ne.
    - by injection E2 as <-. }
  split; [exact Hhold|]. split; [|split].
  - intros held delta_t r r1 r2 E1 Hh E2.
    rewrite (Hhold held delta_t r1 r2 (or_introl Hh) E2).
    unfold App.button_left in E1.
    apply bind_Some in E1 as (a & Ea & E1). injection E1 as <-. cbn.
    apply py_setitem_inv in Ea as [Hlt ->].
    by apply list_lookup_insert_eq.
  - intros r r' [E|E]; unfold App.button_up, App.button_down in E;
      apply bind_Some in E as (a & Ea & E); injection E as <-; cbn;
      apply py_setitem_inv in Ea as [_ ->];
      by rewrite list_lookup_insert_ne.
  - intros r r' [E|E]; unfold App.button_left, App.button_right in E;
      apply bind_Some in E as (a & Ea & E); injection E as <-; cbn;
      apply py_setitem_inv in Ea as [_ ->];
      by rewrite list_lookup_insert_ne.
Qed.

Lemma hold_to_rotate_witness :
  App.angular
    (App.mesh
       (default Examples.app0
          (App.update (λ pin, match pin with JOY_LEFT => true | _ => false end)
             (1 # 50)
             (default Examples.app0 (App.button_left Examples.app0)))))
    !! 1%nat = Some 45%Q.
Proof.
  destruct hold_to_rotate as (_ & H & _).
  apply (H (λ pin, match pin with JOY_LEFT => true | _ => false end)
           (1 # 50) Examples.app0
           (default Examples.app0 (App.button_left Examples.app0))).
  - vm_compute. reflexivity.
  - reflexivity.
  - vm_compute. reflexivity.
Defined.

(** ** Errors of the projection matrix *)

(** X13.  [perspective_matrix] raises a division error exactly when the
    tangent of half the field of view times the aspect ratio is zero or
    the far plane equals the near plane; otherwise it returns a matrix. *)
Theorem perspective_matrix_error (P : PyMath) (fov aspect near far : Q) :
  App.perspective_matrix fov aspect near far = None ↔
  (tan (radians (fov * (1 # 2))) * aspect == 0)%Q ∨ (far - near == 0)%Q.
Proof.
  set (scale := tan (radians (fov * (1 # 2)))).
  assert (∀ a b, py_div a b = None ↔ (b == 0)%Q) as Hdiv.
  { intros a b. unfold py_div. destruct (Qeq_bool b 0) eqn:E.
    - apply Qeq_bool_iff in E. by split.
    - apply Qeq_bool_neq in E. by split. }
  split.
  - intros E. unfold App.perspective_matrix in E. fold scale in E.
    destruct (py_div 1 (scale * aspect)) as [x|] eqn:Ex;
      [|left; by apply Hdiv in Ex].
    cbn in E. destruct (py_div 1 scale) as [y|] eqn:Ey.
    + cbn in E. destruct (py_div (- far) (far - near)) as [zs|] eqn:Ezs;
        [|right; by apply Hdiv in Ezs].
      cbn in E. destruct (py_div (- far * near) (far - near)) as [zo|] eqn:Ez;
        [done|right; by apply Hdiv in Ez].
    + left. apply Hdiv in Ey. rewrite Ey. ring.
  - intros [E|E]; unfold App.perspective_matrix; fold scale.
    + apply (Hdiv 1%Q) in E. by rewrite E.
    + destruct (py_div 1 (scale * aspect)) as [x|]; [|done]. cbn.
      destruct (py_div 1 scale) as [y|]; [|done]. cbn.
      apply (Hdiv (- far)%Q) in E. by rewrite E.
Qed.

(** ** Screen coordinates of the earlier revision *)

Lemma Qlt_inject_Z (a b : Z) : (inject_Z a < inject_Z b)%Q → (a < b)%Z.
Proof. by rewrite <- Zlt_Qlt. Qed.

Lemma py_int_mono (x y : Q) : (x <= y)%Q → (py_int x ≤ py_int y)%Z.
Proof.
  intros Hxy.
  destruct (py_int_truncates x) as [Hx0 Hx1].
  destruct (py_int_truncates y) as [Hy0 Hy1].
  destruct (Qlt_le_dec x 0) as [Hx|Hx].
  - destruct (Hx1 (Qlt_le_weak _ _ Hx)) as [Hxl Hxu].
    destruct (Qlt_le_dec y 0) as [Hy|Hy].
    + destruct (Hy1 (Qlt_le_weak _ _ Hy)) as [Hyl Hyu].
      assert (inject_Z (py_int x) < inject_Z (py_int y + 1))%Q as H.
      { rewrite inject_Z_plus. change (inject_Z 1) with 1%Q. lra. }
      apply Qlt_inject_Z in H. lia.
    + destruct (Hy0 Hy) as [Hyl Hyu].
      assert (inject_Z (py_int x) < inject_Z 1)%Q as H1.
      { change (inject_Z 1) with 1%Q. lra. }
      assert (inject_Z (-1) < inject_Z (py_int y))%Q as H2.
      { change (inject_Z (-1)) with (-1)%Q. lra. }
      apply Qlt_inject_Z in H1, H2. lia.
  - destruct (Hx0 Hx) as [Hxl Hxu].
    destruct Hy0 as [Hyl Hyu]; [lra|].
    assert (inject_Z (py_int x) < inject_Z (py_int y + 1))%Q as H.
    { rewrite inject_Z_plus. change (inject_Z 1) with 1%Q. lra. }
    apply Qlt_inject_Z in H. lia.
Qed.

Lemma py_int_between (x : Q) (n : Z) :
  (0 <= x)%Q → (x <= inject_Z n)%Q → (0 ≤ py_int x ≤ n)%Z.
Proof.
  intros H0 Hn. destruct (py_int_truncates x) as [Hpos _].
  destruct (Hpos H0) as [Hle Hlt].
  split.
  - assert (inject_Z (-1) < inject_Z (py_int x))%Q as H.
    { change (inject_Z (-1)) with (-1)%Q. lra. }
    apply Qlt_inject_Z in H. lia.
  - rewrite Zle_Qle. lra.
Qed.

(** *** The binary formats keep the order *)

Lemma round_half_even_inject (n : Z) : round_half_even (inject_Z n) = n.
Proof.
  unfold round_half_even. rewrite Qfloor_Z.
  destruct (Qcompare_spec (inject_Z n - inject_Z n) (1 # 2)); [lra|done|lra].
Qed.

Lemma round_half_even_range (x : Q) :
  (Qfloor x ≤ round_half_even x ≤ Qfloor x + 1)%Z.
Proof.
  unfold round_half_even.
  destruct (x - inject_Z (Qfloor x) ?= 1 # 2)%Q; [|lia..].
  destruct (Z.even (Qfloor x)); lia.
Qed.

Lemma round_half_even_mono (s t : Q) :
  (s <= t)%Q → (round_half_even s ≤ round_half_even t)%Z.
Proof.
  intros Hst. pose proof (Qfloor_resp_le _ _ Hst) as Hf.
  destruct (decide (Qfloor s = Qfloor t)) as [E|N].
  - unfold round_half_even. rewrite <- E.
    destruct (Qcompare_spec (s - inject_Z (Qfloor s)) (1 # 2)) as [Es|Ls|Gs];
      destruct (Qcompare_spec (t - inject_Z (Qfloor s)) (1 # 2)) as [Et|Lt|Gt];
      try lia; try lra; destruct (Z.even (Qfloor s)); lia || lra.
  - pose proof (round_half_even_range s). pose proof (round_half_even_range t).
    lia.
Qed.

Lemma pow2_pos (z : Z) : (0 < Qpower 2 z)%Q.
Proof. by apply Qpower_0_lt. Qed.

Lemma pow2_quotient (i j : Z) :
  (0 ≤ i)%Z → (0 ≤ j)%Z →
  (Qpower 2 (i - j) == inject_Z (2 ^ i) / inject_Z (2 ^ j))%Q.
Proof.
  intros Hi Hj. rewrite Qpower_minus by done.
  by rewrite !Zpower_Qpower.
Qed.

Lemma binade_spec (a : Q) :
  (0 < a)%Q →
  (Qpower 2 (binade a) <= a)%Q ∧ (a < Qpower 2 (binade a + 1))%Q.
Proof.
  intros Ha. unfold binade.
  destruct a as [n d]. cbn [Qnum Qden].
  assert (0 < n)%Z as Hn. { unfold Qlt in Ha. cbn in Ha. lia. }
  pose proof (Z.log2_spec n Hn) as [Hn1 Hn2].
  pose proof (Z.log2_spec (Z.pos d) eq_refl) as [Hd1 Hd2].
  pose proof (Z.log2_nonneg n) as Hln.
  pose proof (Z.log2_nonneg (Z.pos d)) as Hld.
  set (ln := Z.log2 n) in *. set (ld := Z.log2 (Z.pos d)) in *.
  assert (0 < 2 ^ ld)%Z as Hpd by (apply Z.pow_pos_nonneg; lia).
  assert (0 < 2 ^ Z.succ ld)%Z as Hpd' by (apply Z.pow_pos_nonneg; lia).
  assert (0 < 2 ^ ln)%Z as Hpn by (apply Z.pow_pos_nonneg; lia).
  assert (n # d < Qpower 2 (ln - ld + 1))%Q as HU.
  { replace (ln - ld + 1)%Z with (Z.succ ln - ld)%Z by lia.
    rewrite pow2_quotient by lia.
    apply Qlt_shift_div_l.
    - change 0%Q with (inject_Z 0). by rewrite <- Zlt_Qlt.
    - unfold Qlt, Qmult, inject_Z. cbn [Qnum Qden]. nia. }
  assert (Qpower 2 (ln - ld - 1) < n # d)%Q as HL.
  { replace (ln - ld - 1)%Z with (ln - Z.succ ld)%Z by lia.
    rewrite pow2_quotient by lia.
    apply Qlt_shift_div_r.
    - change 0%Q with (inject_Z 0). by rewrite <- Zlt_Qlt.
    - unfold Qlt, Qmult, inject_Z. cbn [Qnum Qden]. nia. }
  destruct (Qle_bool (Qpower 2 (ln - ld)) (n # d)) eqn:E.
  - apply Qle_bool_iff in E. done.
  - split; [by apply Qlt_le_weak|].
    replace (ln - ld - 1 + 1)%Z with (ln - ld)%Z by lia.
    apply Qnot_le_lt. intros H. apply Qle_bool_iff in H. congruence.
Qed.

Lemma binade_mono (a b : Q) :
  (0 < a)%Q → (a <= b)%Q → (binade a ≤ binade b)%Z.
Proof.
  intros Ha Hab.
  destruct (binade_spec a Ha) as [Ha1 _].
  destruct (binade_spec b) as [_ Hb2]; [lra|].
  assert (Qpower 2 (binade a) < Qpower 2 (binade b + 1))%Q as H by lra.
  apply Qpower_lt_compat_l_inv in H; [lia|lra].
Qed.

Lemma round_pos_bounds (p : Z) (a : Q) :
  (1 ≤ p)%Z → (0 < a)%Q →
  (Qpower 2 (binade a) <= round_pos p a)%Q ∧
  (round_pos p a <= Qpower 2 (binade a + 1))%Q.
Proof.
  intros Hp Ha. destruct (binade_spec a Ha) as [H1 H2].
  unfold round_pos. cbn zeta. rewrite Qred_correct.
  set (e := binade a) in *.
  pose proof (pow2_pos (p - 1 - e)) as Hs.
  pose proof (pow2_pos (e - p + 1)) as Hs'.
  assert (Qpower 2 e * Qpower 2 (p - 1 - e) == inject_Z (2 ^ (p - 1)))%Q as El.
  { rewrite <- Qpower_plus by done.
    replace (e + (p - 1 - e))%Z with (p - 1)%Z by lia.
    by rewrite Zpower_Qpower by lia. }
  assert (Qpower 2 (e + 1) * Qpower 2 (p - 1 - e) == inject_Z (2 ^ p))%Q as Eu.
  { rewrite <- Qpower_plus by done.
    replace (e + 1 + (p - 1 - e))%Z with p by lia.
    by rewrite Zpower_Qpower by lia. }
  assert (inject_Z (2 ^ (p - 1)) * Qpower 2 (e - p + 1) == Qpower 2 e)%Q as El'.
  { rewrite Zpower_Qpower by lia. rewrite <- Qpower_plus by done.
    by replace (p - 1 + (e - p + 1))%Z with e by lia. }
  assert (inject_Z (2 ^ p) * Qpower 2 (e - p + 1) == Qpower 2 (e + 1))%Q as Eu'.
  { rewrite Zpower_Qpower by lia. rewrite <- Qpower_plus by done.
    by replace (p + (e - p + 1))%Z with (e + 1)%Z by lia. }
  set (s := (a * Qpower 2 (p - 1 - e))%Q).
  assert (inject_Z (2 ^ (p - 1)) <= s)%Q as Hs1.
  { rewrite <- El. unfold s. by apply Qmult_le_compat_r; [|apply Qlt_le_weak]. }
  assert (s <= inject_Z (2 ^ p))%Q as Hs2.
  { rewrite <- Eu. unfold s.
    apply Qmult_le_compat_r; by apply Qlt_le_weak. }
  apply round_half_even_mono in Hs1, Hs2.
  rewrite round_half_even_inject in Hs1, Hs2.
  rewrite Zle_Qle in Hs1, Hs2.
  split.
  - rewrite <- El'. by apply Qmult_le_compat_r; [|apply Qlt_le_weak].
  - rewrite <- Eu'. by apply Qmult_le_compat_r; [|apply Qlt_le_weak].
Qed.

Lemma round_pos_mono (p : Z) (a b : Q) :
  (1 ≤ p)%Z → (0 < a)%Q → (a <= b)%Q → (round_pos p a <= round_pos p b)%Q.
Proof.
  intros Hp Ha Hab.
  pose proof (binade_mono a b Ha Hab) as He.
  destruct (decide (binade a = binade b)) as [E|N].
  - unfold round_pos. cbn zeta. rewrite !Qred_correct, <- E.
    apply Qmult_le_compat_r; [|apply Qlt_le_weak, pow2_pos].
    rewrite <- Zle_Qle. apply round_half_even_mono.
    apply Qmult_le_compat_r; [done|apply Qlt_le_weak, pow2_pos].
  - destruct (round_pos_bounds p a Hp Ha) as [_ Hu].
    destruct (round_pos_bounds p b Hp) as [Hl _]; [lra|].
    assert (Qpower 2 (binade a + 1) <= Qpower 2 (binade b))%Q.
    { apply Qpower_le_compat_l; [lia|lra]. }
    lra.
Qed.

Lemma round_pos_pos (p : Z) (a : Q) :
  (1 ≤ p)%Z → (0 < a)%Q → (0 < round_pos p a)%Q.
Proof.
  intros Hp Ha. destruct (round_pos_bounds p a Hp Ha) as [Hl _].
  pose proof (pow2_pos (binade a)). lra.
Qed.

Lemma binary_round_monotone (p : Z) (a b : Q) :
  (1 ≤ p)%Z → (a <= b)%Q → (binary_round p a <= binary_round p b)%Q.
Proof.
  intros Hp Hab. unfold binary_round.
  destruct (Qcompare_spec a 0) as [Ea|La|Ga];
    destruct (Qcompare_spec b 0) as [Eb|Lb|Gb]; try lra.
  - pose proof (round_pos_pos p b Hp Gb). lra.
  - pose proof (round_pos_pos p (- a) Hp). lra.
  - assert (round_pos p (- b) <= round_pos p (- a))%Q.
    { apply round_pos_mono; [done|lra|lra]. }
    lra.
  - pose proof (round_pos_pos p (- a) Hp).
    pose proof (round_pos_pos p b Hp Gb). lra.
  - by apply round_pos_mono.
Qed.

Lemma binary64_monotone : @fl_monotone binary64.
Proof. intros a b. by apply binary_round_monotone. Qed.

Lemma binary32_monotone : @fl_monotone binary32.
Proof. intros a b. by apply binary_round_monotone. Qed.

(** *** From the unit square to the display *)

Section ScreenCoordinates.
Context `{PyFloat}.

Lemma fl_between (lo hi x : Q) :
  fl_monotone → fl_exact lo → fl_exact hi →
  (lo <= x)%Q → (x <= hi)%Q → (lo <= fl x)%Q ∧ (fl x <= hi)%Q.
Proof.
  intros Hm El Eh H1 H2. apply Hm in H1, H2.
  unfold fl_exact in El, Eh. split; lra.
Qed.

Lemma fl_half_between (x : Q) :
  fl_monotone → Forall fl_exact [0; 1; 2]%Q →
  (-1 <= x)%Q → (x <= 1)%Q →
  (0 <= fl (fl (x + 1) * (1 # 2)))%Q ∧ (fl (fl (x + 1) * (1 # 2)) <= 1)%Q.
Proof.
  intros Hm Hex H1 H2.
  inversion Hex as [|? ? E0 Hex1]; subst.
  inversion Hex1 as [|? ? E1 Hex2]; subst.
  inversion Hex2 as [|? ? E2 _]; subst.
  destruct (fl_between 0 2 (x + 1) Hm E0 E2) as [Ha Hb]; [lra..|].
  apply (fl_between 0 1); [done..|lra|lra].
Qed.

Lemma fl_scaled_between (t : Q) (n : Z) :
  fl_monotone → fl_exact 0 → fl_exact (inject_Z n) → (0 ≤ n)%Z →
  (0 <= t)%Q → (t <= 1)%Q →
  (0 ≤ py_int (fl (t * fl (inject_Z n))) ≤ n)%Z.
Proof.
  intros Hm E0 En Hn H0 H1.
  rewrite Zle_Qle in Hn. change (inject_Z 0) with 0%Q in Hn.
  pose proof En as En'. unfold fl_exact in En'.
  destruct (fl_between 0 (inject_Z n) (t * fl (inject_Z n)) Hm E0 En)
    as [Ha Hb]; [nra..|].
  by apply py_int_between.
Qed.

Lemma ndc_column_bounds (r : Root.Renderer) (ndc : Vec3) :
  fl_monotone →
  Forall fl_exact [0; 1; 2]%Q → fl_exact (inject_Z (Root.fb_width r)) →
  (0 ≤ Root.fb_width r)%Z →
  (-1 <= vx ndc)%Q → (vx ndc <= 1)%Q →
  (0 ≤ (Root.ndc_to_screen r ndc).1 ≤ Root.fb_width r)%Z.
Proof.
  intros Hm Hex Ew Hw H1 H2. unfold Root.ndc_to_screen. cbn [fst].
  destruct (fl_half_between (vx ndc) Hm Hex H1 H2) as [Ha Hb].
  apply fl_scaled_between; try done. by inversion Hex.
Qed.

Lemma ndc_row_bounds (r : Root.Renderer) (ndc : Vec3) :
  fl_monotone →
  Forall fl_exact [0; 1; 2]%Q → fl_exact (inject_Z (Root.fb_height r)) →
  (0 ≤ Root.fb_height r)%Z →
  (-1 <= vy ndc)%Q → (vy ndc <= 1)%Q →
  (0 ≤ (Root.ndc_to_screen r ndc).2 ≤ Root.fb_height r)%Z.
Proof.
  intros Hm Hex Eh Hh H1 H2. unfold Root.ndc_to_screen. cbn [snd].
  destruct (fl_half_between (vy ndc) Hm Hex H1 H2) as [Ha Hb].
  inversion Hex as [|? ? E0 Hex1]; subst.
  inversion Hex1 as [|? ? E1 _]; subst.
  destruct (fl_between 0 1 (1 - fl (fl (vy ndc + 1) * (1 # 2))) Hm E0 E1)
    as [Hc Hd]; [lra..|].
  by apply fl_scaled_between.
Qed.

End ScreenCoordinates.

(** X14.  [ndc_to_screen] keeps the unit square within the bounds of the
    display.  Whatever the float format, as long as rounding keeps the
    order and the numbers 0, 1, 2, the width and the height are floats, a
    vertex with [-1 <= x <= 1] and [-1 <= y <= 1] is given a column in
    [0, width] and a row in [0, height], both bounds included. *)
Theorem ndc_to_screen_within_display (F : PyFloat) (r : Root.Renderer)
    (ndc : Vec3) :
  fl_monotone →
  Forall fl_exact
    [0; 1; 2; inject_Z (Root.fb_width r); inject_Z (Root.fb_height r)]%Q →
  (0 ≤ Root.fb_width r)%Z → (0 ≤ Root.fb_height r)%Z →
  in_unit_square ndc → within_display r (Root.ndc_to_screen r ndc).
Proof.
  intros Hm Hex Hw Hh (Hx0 & Hx1 & Hy0 & Hy1).
  assert (Forall fl_exact [0; 1; 2]%Q ∧
          fl_exact (inject_Z (Root.fb_width r)) ∧
          fl_exact (inject_Z (Root.fb_height r))) as (Hs & Ew & Eh).
  { repeat (inversion Hex as [|? ? ? Hex']; subst; clear Hex;
            rename Hex' into Hex).
    by repeat constructor. }
  split.
  - by apply ndc_column_bounds.
  - by apply ndc_row_bounds.
Qed.

Lemma ndc_to_screen_within_display_witness :
  within_display Examples.root0
    (@Root.ndc_to_screen binary32 Examples.root0
       (mkVec3 (-3603995 # 16777216) (3603995 # 16777216) 0)).
Proof.
  apply (ndc_to_screen_within_display binary32).
  - exact binary32_monotone.
  - repeat constructor; vm_compute; reflexivity.
  - vm_compute. discriminate.
  - vm_compute. discriminate.
  - unfold in_unit_square, Qle. cbn. lia.
Defined.

(** X15.  [ndc_to_screen] keeps the horizontal order and reverses the
    vertical one: on a display of non-negative size, in any float format
    whose rounding keeps the order and leaves 0 as it is, a larger NDC x
    never gives a smaller column, and a larger NDC y never gives a larger
    row. *)
Theorem ndc_to_screen_order (F : PyFloat) (r : Root.Renderer) (a b : Vec3) :
  fl_monotone → fl_exact 0 →
  (0 ≤ Root.fb_width r)%Z → (0 ≤ Root.fb_height r)%Z →
  ((vx a <= vx b)%Q →
   ((Root.ndc_to_screen r a).1 ≤ (Root.ndc_to_screen r b).1)%Z) ∧
  ((vy a <= vy b)%Q →
   ((Root.ndc_to_screen r b).2 ≤ (Root.ndc_to_screen r a).2)%Z).
Proof.
  intros Hm E0 Hw Hh.
  rewrite Zle_Qle in Hw, Hh. change (inject_Z 0) with 0%Q in Hw, Hh.
  apply Hm in Hw, Hh. unfold fl_exact in E0.
  unfold Root.ndc_to_screen. cbn [fst snd].
  split; intros Hab; apply py_int_mono, Hm.
  - apply Qmult_le_compat_r; [|lra].
    apply Hm, Qmult_le_compat_r; [|done].
    apply Hm. lra.
  - apply Qmult_le_compat_r; [|lra].
    apply Hm.
    assert (fl (fl (vy a + 1) * (1 # 2)) <= fl (fl (vy b + 1) * (1 # 2)))%Q.
    { apply Hm, Qmult_le_compat_r; [|done]. apply Hm. lra. }
    lra.
Qed.

Lemma ndc_to_screen_order_witness :
  ((@Root.ndc_to_screen binary64 Examples.root0 (mkVec3 0 0 0)).1
     ≤ (@Root.ndc_to_screen binary64 Examples.root0
          (mkVec3 (1 # 3) (1 # 3) 0)).1)%Z ∧
  ((@Root.ndc_to_screen binary64 Examples.root0
      (mkVec3 (1 # 3) (1 # 3) 0)).2
     ≤ (@Root.ndc_to_screen binary64 Examples.root0 (mkVec3 0 0 0)).2)%Z.
Proof.
  destruct (ndc_to_screen_order binary64 Examples.root0 (mkVec3 0 0 0)
              (mkVec3 (1 # 3) (1 # 3) 0)) as [Hx Hy].
  - exact binary64_monotone.
  - vm_compute. reflexivity.
  - vm_compute. discriminate.
  - vm_compute. discriminate.
  - split; [apply Hx|apply Hy]; unfold Qle; cbn; lia.
Defined.

(** X16.  Every face the earlier revision draws has a vertex within the
    bounds of the display: each draw call carries one screen coordinate
    per vertex, in the order of the vertices, and at least one of them has
    its column in [0, width] and its row in [0, height], in any float
    format whose rounding keeps the order and in which 0, 1, 2, the width
    and the height are floats. *)
Theorem root_drawn_face_within_display (F : PyFloat) (white : Z)
    (r : Root.Renderer) (colour_index : nat) (fv : list Vec3)
    (calls : list Root.DrawCall) :
  fl_monotone →
  Forall fl_exact
    [0; 1; 2; inject_Z (Root.fb_width r); inject_Z (Root.fb_height r)]%Q →
  (0 ≤ Root.fb_width r)%Z → (0 ≤ Root.fb_height r)%Z →
  Root.draw_with white r colour_index fv = Some calls →
  Forall
    (λ c, root_call_coords c = Root.ndc_to_screen r <$> fv ∧
          Exists (within_display r) (root_call_coords c))
    calls.
Proof.
  intros Hm Hex Hw Hh E. unfold Root.draw_with in E.
  assert (Forall fl_exact [0; 1; 2]%Q ∧
          fl_exact (inject_Z (Root.fb_width r)) ∧
          fl_exact (inject_Z (Root.fb_height r))) as (Hs & Ew & Eh).
  { repeat (inversion Hex as [|? ? ? Hex']; subst; clear Hex;
            rename Hex' into Hex).
    by repeat constructor. }
  destruct (face_visible fv) eqn:Hv; cbn in E.
  - apply root_dispatch_coords in E.
    eapply Forall_impl; [exact E|]. intros c Hc.
    assert (root_call_coords c = Root.ndc_to_screen r <$> fv) as ->.
    { by destruct c. }
    split; [done|]. apply face_visible_spec in Hv.
    apply Exists_fmap. eapply Exists_impl; [exact Hv|].
    intros v (Hx0 & Hx1 & Hy0 & Hy1). cbn. split.
    + apply ndc_column_bounds; try done; by apply Qlt_le_weak.
    + apply ndc_row_bounds; try done; by apply Qlt_le_weak.
  - injection E as <-. constructor.
Qed.

Lemma root_drawn_face_within_display_witness :
  Forall
    (λ c, root_call_coords c
            = @Root.ndc_to_screen binary64 Examples.root0
                <$> [mkVec3 (1 - (1 # 9007199254740992))
                            (-1 + (1 # 9007199254740992)) 0;
                     mkVec3 5 5 0; mkVec3 5 5 0] ∧
          Exists (within_display Examples.root0) (root_call_coords c))
    [Root.Points [(135, 240); (405, -480); (405, -480)]%Z 65535].
Proof.
  apply (root_drawn_face_within_display binary64 65535%Z Examples.root0
           0%nat).
  - exact binary64_monotone.
  - repeat constructor; vm_compute; reflexivity.
  - vm_compute. discriminate.
  - vm_compute. discriminate.
  - vm_compute. reflexivity.
Defined.

(** X21.  The bounds of the display are reached from inside the viewport.
    On the 135 x 240 display the vertex [(1 - 2^-53, -1 + 2^-53)] passes
    the viewport test, and in double precision [ndc_to_screen] gives it
    column 135 and row 240, one past the last column and the last row,
    where arithmetic without rounding gives column 134 and row 239.  In
    single precision the vertex [(1 - 2^-24, 0)] is given column 135, and
    the vertex [(-3603995 / 2^24, 0)] column 53 where arithmetic without
    rounding gives 52. *)
Theorem ndc_to_screen_reaches_edge :
  let corner := mkVec3 (1 - (1 # 9007199254740992))
                       (-1 + (1 # 9007199254740992)) 0 in
  let right := mkVec3 (1 - (1 # 16777216)) 0 0 in
  let inner := mkVec3 (-3603995 # 16777216) 0 0 in
  vert_in_view corner = true ∧
  vert_in_view right = true ∧
  vert_in_view inner = true ∧
  @Root.ndc_to_screen binary64 Examples.root0 corner = (135, 240)%Z ∧
  @Root.ndc_to_screen exact_arithmetic Examples.root0 corner
    = (134, 239)%Z ∧
  @Root.ndc_to_screen binary32 Examples.root0 right = (135, 120)%Z ∧
  @Root.ndc_to_screen exact_arithmetic Examples.root0 right
    = (134, 120)%Z ∧
  @Root.ndc_to_screen binary32 Examples.root0 inner = (53, 120)%Z ∧
  @Root.ndc_to_screen exact_arithmetic Examples.root0 inner = (52, 120)%Z.
Proof.
  cbn zeta. repeat split; vm_compute; reflexivity.
Qed.

(** ** The frame clock *)

Section FrameClock.
Context `{Tidal3D}.
Context (BLACK : Z) (ticks_diff : Z → Z → Z) (format_fps : Z → string).

Lemma loop_clock (held : Pin → bool) (now : Z)
    (s : App.Renderer * App.Clock)
    (out : App.Renderer * App.Clock * list App.FbCall) :
  App.loop BLACK ticks_diff format_fps held now s = Some out →
  out.1.2 = App.count_frame now (ticks_diff now (App.start_t s.2)) s.2.
Proof.
  unfold App.loop. cbn zeta. intros E.
  apply bind_Some in E as (r & _ & E).
  apply bind_Some in E as (scene & _ & E). by injection E as <-.
Qed.

Lemma count_frame_spec (now delta_t : Z) (c : App.Clock) :
  (0 ≤ delta_t ≤ 1000)%Z → (0 ≤ App.accum_t c ≤ 1000)%Z →
  (0 ≤ App.frame_counter c)%Z →
  let c' := App.count_frame now delta_t c in
  App.start_t c' = now ∧
  (0 ≤ App.accum_t c' ≤ 1000)%Z ∧
  (0 ≤ App.frame_counter c' ≤ App.frame_counter c + 1)%Z ∧
  (∃ k, (0 ≤ k ≤ 1)%Z ∧
        (App.accum_t c' + 1000 * k = App.accum_t c + delta_t)%Z ∧
        (k = 0%Z → App.fps c' = App.fps c ∧
                   App.frame_counter c' = (App.frame_counter c + 1)%Z) ∧
        (k = 1%Z → App.fps c' = (App.frame_counter c + 1)%Z ∧
                   App.frame_counter c' = 0%Z)).
Proof.
  intros Hd Ha Hf. unfold App.count_frame. cbn zeta.
  destruct (Z.ltb_spec 1000 (App.accum_t c + delta_t)); cbn.
  - split; [done|]. split; [lia|]. split; [lia|].
    exists 1%Z. repeat split; lia.
  - split; [done|]. split; [lia|]. split; [lia|].
    exists 0%Z. repeat split; lia.
Qed.
End FrameClock.

Lemma last_cons_default {A} (l : list A) (a d : A) :
  List.last (a :: l) d = List.last l a.
Proof.
  revert a d. induction l as [|b l IH]; intros a d; [done|].
  change (List.last (a :: b :: l) d) with (List.last (b :: l) d).
  by rewrite (IH b d), (IH b a).
Qed.

(** X17.  The frame clock loses no time.  Over any run of frames none of
    which takes more than a second, the accumulated time stays between 0
    and 1000 ms, it differs from the time elapsed by a whole number of
    seconds that does not exceed the number of frames, the frame counter
    never exceeds the number of frames run, and the clock remembers when
    the last frame was entered. *)
Theorem frame_clock (T : Tidal3D) (BLACK : Z) (ticks_diff : Z → Z → Z)
    (format_fps : Z → string) (held : Pin → bool) (ticks : list Z)
    (s s' : App.Renderer * App.Clock) :
  frames_within ticks_diff 1000 (App.start_t s.2) ticks →
  (0 ≤ App.accum_t s.2 ≤ 1000)%Z → (0 ≤ App.frame_counter s.2)%Z →
  App.run BLACK ticks_diff format_fps held ticks s = Some s' →
  (0 ≤ App.accum_t s'.2 ≤ 1000)%Z ∧
  (0 ≤ App.frame_counter s'.2
     ≤ App.frame_counter s.2 + Z.of_nat (length ticks))%Z ∧
  (∃ k, (0 ≤ k ≤ Z.of_nat (length ticks))%Z ∧
        (App.accum_t s'.2 + 1000 * k
           = App.accum_t s.2 + elapsed ticks_diff (App.start_t s.2) ticks)%Z) ∧
  App.start_t s'.2 = List.last ticks (App.start_t s.2).
Proof.
  unfold App.run. revert s.
  induction ticks as [|now ticks IH]; intros s Hw Ha Hf E.
  - cbn in E. injection E as <-. cbn.
    split; [done|]. split; [lia|]. split; [|done]. exists 0%Z. lia.
  - rewrite foldlM_cons in E. destruct Hw as [Hd Hw].
    apply bind_Some in E as (s1 & E1 & E).
    apply fmap_Some in E1 as (out & E1 & ->).
    apply loop_clock in E1.
    destruct (count_frame_spec now _ s.2 Hd Ha Hf)
      as (Hs1 & Ha1 & Hf1 & k1 & Hk1 & Hsum1 & _).
    rewrite <- E1 in Hs1, Ha1, Hf1, Hsum1.
    assert (frames_within ticks_diff 1000 (App.start_t out.1.2) ticks)
      as Hw1 by (by rewrite Hs1).
    assert (0 ≤ App.frame_counter out.1.2)%Z as Hf2 by lia.
    destruct (IH out.1 Hw1 Ha1 Hf2 E) as (Ha' & Hf' & (k & Hk & Hsum) & Hlast).
    rewrite Hs1 in Hsum, Hlast.
    split; [done|]. split; [cbn [length]; lia|]. split.
    + exists (k + k1)%Z. cbn [length elapsed]. lia.
    + rewrite Hlast. symmetry. apply last_cons_default.
Qed.

Lemma frame_clock_witness :
  ∃ k, (0 ≤ k ≤ 3)%Z ∧
       (400 + 1000 * k
          = 0 + elapsed Examples.plain_diff 0 [400; 1100; 1400])%Z.
Proof.
  destruct (frame_clock Examples.tidal3d 0%Z Examples.plain_diff
              Examples.no_format Examples.nobody [400; 1100; 1400]%Z
              (Examples.app0, App.mkClock 0 0 0 0)
              (default (Examples.app0, App.mkClock 0 0 0 0)
                 (@App.run Examples.tidal3d 0%Z Examples.plain_diff
                    Examples.no_format Examples.nobody
                    [400; 1100; 1400]%Z
                    (Examples.app0, App.mkClock 0 0 0 0))))
    as (_ & _ & (k & Hk & Hsum) & _).
  - vm_compute. repeat split; discriminate.
  - vm_compute. split; discriminate.
  - vm_compute. discriminate.
  - vm_compute. reflexivity.
  - exists k. split; [exact Hk|].
    etrans; [|exact Hsum]. by f_equal.
Defined.

(** ** The faces of the earlier revision *)

Lemma root_dispatch_length (white : Z) (r : Root.Renderer)
    (coords : list (Z * Z)) (ci : nat) (calls : list Root.DrawCall) :
  Root.dispatch white r coords ci = Some calls → length calls ≤ 1.
Proof.
  unfold Root.dispatch. intros E.
  repeat case_match; simplify_option_eq; cbn; lia.
Qed.

(** X18.  The earlier revision pairs the faces with their colour indices
    by [zip]: faces beyond the shorter of the two lists are never looked
    at, and a frame issues at most one draw call for each of the pairs. *)
Theorem root_render_scene_call_count (M : Math3D) (F : PyFloat) (white : Z)
    (r : Root.Renderer) (calls : list Root.DrawCall) :
  Root.render_scene white r = Some calls →
  length calls
    ≤ length (Root.indices (Root.mesh r))
        `min` length (Root.colour_indices (Root.mesh r)).
Proof.
  unfold Root.render_scene. cbn zeta. intros E.
  destruct (Root.collect_faces _ _ _) as [st|] eqn:EC; [|done].
  cbn in E. apply mapM_concat_inv in E as (per_face & HF & ->).
  unfold Root.collect_faces in EC.
  apply root_collect_skips_culled in EC as [_ Hst]. cbn in Hst.
  assert (length (concat per_face) ≤ length st.2) as Hlen.
  { clear Hst. induction HF as [|f cs fs per_face Hf _ IH]; [done|].
    unfold Root.draw_face, Root.draw_with in Hf.
    destruct (Root.face_verts st.1 f.1) as [fv|]; [|done]. cbn in Hf.
    cbn. rewrite length_app.
    destruct (face_visible fv); cbn in Hf.
    - apply root_dispatch_length in Hf. lia.
    - injection Hf as <-. cbn. lia. }
  rewrite Hst in Hlen. etrans; [exact Hlen|].
  etrans; [apply length_filter|]. by rewrite length_zip.
Qed.

Lemma root_render_scene_call_count_witness :
  length [Root.Points [(32, 120); (102, 120); (67, 50)]%Z 65535;
          Root.Points [(32, 120); (67, 50); (102, 120)]%Z 65535]
    ≤ length (Root.indices (Root.mesh Examples.root0))
        `min` length (Root.colour_indices (Root.mesh Examples.root0)).
Proof.
  apply (root_render_scene_call_count Examples.math3d binary64 65535%Z).
  vm_compute. reflexivity.
Defined.

(** ** Starting up and running without errors *)

(** X19.  [__init__] raises a division error exactly when the display has
    height 0 or the tangent of half the 90 degree field of view times the
    aspect ratio is zero; in particular a display of width 0 or height 0
    cannot be started. *)
Theorem init_error (T : Tidal3D) (P : PyMath) (load : string → App.Mesh)
    (width height : Z) :
  (App.init load width height = None ↔
   height = 0%Z ∨
   (tan (radians (90 * (1 # 2))) * (inject_Z width / inject_Z height)
      == 0)%Q) ∧
  (width = 0%Z ∨ height = 0%Z → App.init load width height = None).
Proof.
  assert (App.init load width height = None ↔
          height = 0%Z ∨
          (tan (radians (90 * (1 # 2))) * (inject_Z width / inject_Z height)
             == 0)%Q) as Hiff.
  { unfold App.init, py_div at 1.
    destruct (Qeq_bool (inject_Z height) 0) eqn:Eh.
    - apply Qeq_bool_iff in Eh. split; [|done]. intros _. left.
      unfold Qeq in Eh. cbn in Eh. lia.
    - apply Qeq_bool_neq in Eh. cbn [mbind option_bind].
      destruct (App.perspective_matrix 90 _ (1 # 10) 100) as [proj|] eqn:Ep.
      + cbn. split; [done|]. intros [->|E]; [by destruct Eh|].
        assert (App.perspective_matrix 90
                  (inject_Z width / inject_Z height) (1 # 10) 100 = None)
          as Hn by (apply perspective_matrix_error; by left).
        congruence.
      + cbn. split; [|done]. intros _. right.
        apply perspective_matrix_error in Ep as [E|E]; [done|].
        by vm_compute in E. }
  split; [exact Hiff|].
  intros [-> | ->]; apply Hiff; [|by left].
  right. change (inject_Z 0) with 0%Q.
  unfold Qdiv. rewrite Qmult_0_l. apply Qmult_0_r.
Qed.

Lemma init_error_witness :
  @App.init Examples.tidal3d Examples.pymath Examples.app_load 0 240 = None.
Proof.
  destruct (init_error Examples.tidal3d Examples.pymath Examples.app_load
              0 240) as [_ H].
  apply H. by left.
Defined.

Lemma app_mesh_update_lengths (m m' : App.Mesh) (delta_t : Q) :
  App.mesh_update m delta_t = Some m' →
  length (App.angular m') = length (App.angular m) ∧
  length (App.orientation m') = length (App.orientation m).
Proof.
  unfold App.mesh_update. intros E.
  apply bind_Some in E as (o & Eo & E). injection E as <-. cbn.
  split; [done|]. cbn in Eo. unfold App.mesh_update_axis in Eo.
  apply bind_Some in Eo as (o0 & E0 & Eo).
  apply bind_Some in Eo as (o1 & E1 & Eo).
  apply bind_Some in Eo as (o2 & E2 & Eo). injection Eo as <-.
  apply bind_Some in E0 as (? & _ & E0).
  apply bind_Some in E0 as (? & _ & E0).
  apply bind_Some in E1 as (? & _ & E1).
  apply bind_Some in E1 as (? & _ & E1).
  apply bind_Some in E2 as (? & _ & E2).
  apply bind_Some in E2 as (? & _ & E2).
  apply py_setitem_inv in E0 as [_ ->], E1 as [_ ->], E2 as [_ ->].
  by rewrite !length_insert.
Qed.

Lemma app_handle_lengths (load : string → App.Mesh) (e : App.Event)
    (r r' : App.Renderer) :
  (∀ name, length (App.angular (load name)) = 3%nat ∧
           length (App.orientation (load name)) = 3%nat) →
  length (App.angular (App.mesh r)) = 3%nat →
  length (App.orientation (App.mesh r)) = 3%nat →
  App.handle load e r = Some r' →
  length (App.angular (App.mesh r')) = 3%nat ∧
  length (App.orientation (App.mesh r')) = 3%nat.
Proof.
  intros Hload Ha Ho E. destruct e as [| |pin|held delta_t].
  - cbn in E. injection E as <-. unfold App.select_mode. cbn.
    by destruct (_ <? _)%Z.
  - cbn in E. injection E as <-. cbn. apply Hload.
  - assert (∀ i x a, py_setitem (App.angular (App.mesh r)) i x = Some a →
                     length a = 3%nat) as Hset.
    { intros i x a Ea. apply py_setitem_inv in Ea as [_ ->].
      by rewrite length_insert. }
    destruct pin; cbn in E;
      unfold App.button_up, App.button_down, App.button_left,
        App.button_right in E;
      apply bind_Some in E as (a & Ea & E); injection E as <-; cbn;
      by rewrite (Hset _ _ _ Ea).
  - cbn in E.
    destruct (app_update_inv _ _ _ _ E) as (a1 & a2 & E1 & E2 & Hang).
    assert (length a1 = 3%nat) as H1.
    { destruct (_ && _) in E1.
      - apply py_setitem_inv in E1 as [_ ->]. by rewrite length_insert.
      - by injection E1 as <-. }
    assert (length a2 = 3%nat) as H2.
    { destruct (_ && _) in E2.
      - apply py_setitem_inv in E2 as [_ ->]. by rewrite length_insert.
      - by injection E2 as <-. }
    split; [by rewrite Hang|].
    unfold App.update in E.
    apply bind_Some in E as (m1 & Em1 & E).
    apply bind_Some in E as (m2 & Em2 & E).
    apply bind_Some in E as (m3 & Em3 & E). injection E as <-. cbn.
    apply app_mesh_update_lengths in Em3 as [_ ->].
    assert (App.orientation m1 = App.orientation (App.mesh r)) as Eo1.
    { destruct (_ && _) in Em1.
      - by apply fmap_Some in Em1 as (? & _ & ->).
      - by injection Em1 as <-. }
    assert (App.orientation m2 = App.orientation m1) as Eo2.
    { destruct (_ && _) in Em2.
      - by apply fmap_Some in Em2 as (? & _ & ->).
      - by injection Em2 as <-. }
    by rewrite Eo2, Eo1.
Qed.

(** X20.  Once started, the controls and the simulation step never raise:
    as long as the loader returns meshes with three-component orientation
    and angular velocity, every state the application reaches keeps them
    three components long, and every button press and every [update]
    returns a state. *)
Theorem handlers_never_raise (T : Tidal3D) (P : PyMath)
    (load : string → App.Mesh) (width height : Z) (r : App.Renderer) :
  (∀ name, length (App.angular (load name)) = 3%nat ∧
           length (App.orientation (load name)) = 3%nat) →
  App.reachable load width height r →
  length (App.angular (App.mesh r)) = 3%nat ∧
  length (App.orientation (App.mesh r)) = 3%nat ∧
  ∀ e : App.Event, is_Some (App.handle load e r).
Proof.
  intros Hload Hreach.
  assert (length (App.angular (App.mesh r)) = 3%nat ∧
          length (App.orientation (App.mesh r)) = 3%nat) as [Ha Ho].
  { induction Hreach as [r Hinit|r e r' _ [IHa IHo] Hstep].
    - unfold App.init in Hinit.
      apply bind_Some in Hinit as (aspect & _ & Hinit).
      apply bind_Some in Hinit as (proj & _ & Hinit).
      injection Hinit as <-. cbn. apply Hload.
    - by apply (app_handle_lengths load e r r'). }
  split; [done|]. split; [done|].
  intros [| |pin|held delta_t]; cbn; [by eexists|by eexists| |].
  - destruct pin; unfold App.button_up, App.button_down, App.button_left,
      App.button_right; rewrite py_setitem_Some by lia; by eexists.
  - unfold App.update.
    assert (∃ m1,
      (if negb (held JOY_LEFT) && negb (held JOY_RIGHT)
       then App.set_angular (App.mesh r) <$>
              py_setitem (App.angular (App.mesh r)) 1 0%Q
       else Some (App.mesh r)) = Some m1 ∧
      length (App.angular m1) = 3%nat ∧
      length (App.orientation m1) = 3%nat) as (m1 & -> & Ha1 & Ho1).
    { destruct (_ && _).
      - rewrite py_setitem_Some by lia. eexists. split; [done|]. cbn.
        by rewrite length_insert.
      - by eexists. }
    cbn [mbind option_bind].
    assert (∃ m2,
      (if negb (held JOY_UP) && negb (held JOY_DOWN)
       then App.set_angular m1 <$> py_setitem (App.angular m1) 0 0%Q
       else Some m1) = Some m2 ∧
      length (App.angular m2) = 3%nat ∧
      length (App.orientation m2) = 3%nat) as (m2 & -> & Ha2 & Ho2).
    { destruct (_ && _).
      - rewrite py_setitem_Some by lia. eexists. split; [done|]. cbn.
        by rewrite length_insert.
      - by eexists. }
    cbn [mbind option_bind].
    destruct (app_mesh_update_Some m2 delta_t Ho2 Ha2) as [m3 ->].
    by eexists.
Qed.

Lemma handlers_never_raise_witness :
  is_Some
    (@App.handle Examples.app_load (App.Joy JOY_LEFT) Examples.app0).
Proof.
  destruct (handlers_never_raise Examples.tidal3d Examples.pymath
              Examples.app_load 135 240 Examples.app0) as (_ & _ & H).
  - intros name. by split.
  - apply App.reach_init. vm_compute. reflexivity.
  - apply H.
Defined.
